(** * parks-planner: clustering, trip categories and the trip report

    A shallow embedding of [main.py]: the park and drive-time records, the
    greedy seed-based clustering, the trip categorizer, the report
    aggregator, the two geocoding steps and the driver [main], followed by
    the properties the specification states about them.

    Conventions.
    - A Python [dict] whose iteration order matters ([parks]) is an
      association list in insertion order; its keys are pairwise distinct,
      which theorems assume as [NoDup (parks.*1)] where they need it.
    - A [dict] that is only looked up ([drive_times]) is a [gmap string _].
    - The [set] of assigned names is a [gset string].
    - Python floats are IEEE binary64 numbers: the kernel's [float].
    - [print] and [time.sleep] have no effect on any value computed and are
      left out. *)

From Stdlib Require Import ZArith QArith Ascii String Floats.PrimFloat.
From stdpp Require Import gmap strings list fin_maps pretty sorting.

Set Warnings "-clear-no-such-hyp".

Local Open Scope string_scope.
Local Open Scope list_scope.

(** ** Data model *)

(** A value of [parks.json]: the marker of a park still to be geocoded
    (["Y"]; any non-dict value behaves alike), a coordinate record
    [{"lat": _, "lng": _}], or the record [{"lat": null, "lng": null,
    "error": _}] that a failed lookup leaves behind. These are the values
    the user enters and [geocode_parks] writes: a record with a latitude
    has a longitude. *)
Inductive park_value : Type :=
  | Pending (marker : string)
  | Located (lat lng : float)
  | NotLocated (error : string).

(** [isinstance(coords, dict) and coords.get("lat") is not None], together
    with the two fields that the callers then read. *)
Definition resolved_coords (coords : park_value) : option (float * float) :=
  match coords with
  | Located lat lng => Some (lat, lng)
  | Pending _ | NotLocated _ => None
  end.

(** An entry of [drive_times.json]. A field is [None] when the key is
    absent from the entry; the entries the program writes carry either the
    four route fields or [error] alone. *)
Record drive_info : Type := DriveInfo {
  duration_seconds : option Z;
  duration_text : option string;
  distance_meters : option Z;
  distance_text : option string;
  error : option string
}.

(** The empty dict [{}], the default of [drive_times.get(name, {})]. *)
Definition no_info : drive_info := DriveInfo None None None None None.

Definition route_info (seconds : Z) (dtext : string) (meters : Z) (mtext : string)
  : drive_info :=
  DriveInfo (Some seconds) (Some dtext) (Some meters) (Some mtext) None.

Definition error_info (msg : string) : drive_info :=
  DriveInfo None None None None (Some msg).

(** [drive_times.get(park_name, {})] *)
Definition get_info (drive_times : gmap string drive_info) (park_name : string)
  : drive_info :=
  default no_info (drive_times !! park_name).

(** ** Configuration constants *)

Definition MY_ADDRESS : string := "Santa Cruz, CA".
Definition CLUSTER_THRESHOLD_MILES : float := 30%float.

(** ** The math module

    [radians], [sin], [cos], [sqrt] and [atan2] of Python's [math], and the
    C library's [pow] behind [**] on floats, are not part of the
    repository: they are the interface the distance utility is written
    against. *)
Class Math : Type := {
  radians : float → float;
  sin : float → float;
  cos : float → float;
  sqrt : float → float;
  atan2 : float → float → float;
  pow : float → float → float
}.

Section Clustering.
Context `{M : Math}.

(** [haversine_distance]: great-circle distance in miles. *)
Definition haversine_distance (lat1 lng1 lat2 lng2 : float) : float :=
  let R := 3959%float in
  let lat1 := radians lat1 in
  let lng1 := radians lng1 in
  let lat2 := radians lat2 in
  let lng2 := radians lng2 in
  let dlat := (lat2 - lat1)%float in
  let dlng := (lng2 - lng1)%float in
  let a := (pow (sin (dlat / 2)) 2 + cos lat1 * cos lat2 * pow (sin (dlng / 2)) 2)%float in
  let c := (2 * atan2 (sqrt a) (sqrt (1 - a)))%float in
  (R * c)%float.

(** The list comprehension at the head of [cluster_parks]: the parks with
    a resolved coordinate, in the mapping's order. *)
Definition valid_parks (parks : list (string * park_value))
  : list (string * (float * float)) :=
  omap (λ '(name, coords), pair name <$> resolved_coords coords) parks.

(** One iteration of the inner loop: [other] joins the seed's cluster
    when it is still unassigned and within the threshold of the seed. *)
Definition scan_step (threshold_miles : float) (coords : float * float)
    (st : list string * gset string) (other : string * (float * float))
  : list string * gset string :=
  let '(cluster, assigned) := st in
  let '(other_name, other_coords) := other in
  if decide (other_name ∈ assigned) then (cluster, assigned)
  else
    let distance :=
      haversine_distance coords.1 coords.2 other_coords.1 other_coords.2 in
    if PrimFloat.leb distance threshold_miles
    then (cluster ++ [other_name], {[other_name]} ∪ assigned)
    else (cluster, assigned).

(** One iteration of the outer loop: an unassigned park seeds a new
    cluster, which the inner loop fills from the whole list. *)
Definition seed_step (threshold_miles : float)
    (valid : list (string * (float * float)))
    (st : list (list string) * gset string) (park : string * (float * float))
  : list (list string) * gset string :=
  let '(clusters, assigned) := st in
  let '(name, coords) := park in
  if decide (name ∈ assigned) then (clusters, assigned)
  else
    let '(cluster, assigned) :=
      fold_left (scan_step threshold_miles coords) valid
                ([name], {[name]} ∪ assigned) in
    (clusters ++ [cluster], assigned).

Definition cluster_parks (parks : list (string * park_value))
    (threshold_miles : float) : list (list string) :=
  let valid := valid_parks parks in
  (fold_left (seed_step threshold_miles valid) valid ([], ∅)).1.

End Clustering.

(** ** Strings *)

(** [needle in s] on Python strings. *)
Fixpoint contains (needle s : string) : bool :=
  if String.prefix needle s then true
  else match s with
       | EmptyString => false
       | String _ s' => contains needle s'
       end.

(** [s.endswith(suffix)], the test the docstring of [get_park_type] and the
    specification speak of. *)
Definition ends_with (suffix s : string) : bool :=
  bool_decide (String.length suffix ≤ String.length s)%nat &&
  String.eqb (String.substring (String.length s - String.length suffix)%nat
                               (String.length suffix) s) suffix.

(** [s * n] *)
Fixpoint repeat_string (s : string) (n : nat) : string :=
  match n with
  | O => ""
  | S n' => s +:+ repeat_string s n'
  end.

Definition upper_ascii (c : ascii) : ascii :=
  let n := nat_of_ascii c in
  if bool_decide (97 ≤ n ≤ 122)%nat then ascii_of_nat (n - 32)%nat else c.

(** [s.upper()], on the ASCII letters the category names consist of. *)
Fixpoint upper (s : string) : string :=
  match s with
  | EmptyString => EmptyString
  | String c s' => String (upper_ascii c) (upper s')
  end.

(** The line feed of ["\n"]. *)
Definition LF : string := String (ascii_of_nat 10) EmptyString.

(** ["\n".join(lines)] *)
Definition join_lines (lines : list string) : string := String.concat LF lines.

(** ** Map markers *)

Definition get_park_type (park_name : string) : string :=
  if contains "SHP" park_name then "historical"
  else if contains "SB" park_name then "beach"
  else if contains "SRA" park_name then "recreation"
  else if contains "SNR" park_name then "reserve"
  else "park".

(** What the docstring of [get_park_type] announces ("Determine park type
    from name suffix"), written with [ends_with]; the property of the
    specification is stated against it. *)
Definition park_type_by_suffix (park_name : string) : string :=
  if ends_with "SHP" park_name then "historical"
  else if ends_with "SB" park_name then "beach"
  else if ends_with "SRA" park_name then "recreation"
  else if ends_with "SNR" park_name then "reserve"
  else "park".

(** [duration_seconds / 3600] is Python's true division of an integer by
    an integer, a correctly rounded binary64 quotient. Rounding is monotone
    and the bounds compared against (2, 3, 4, 5) are binary64 numbers, so
    the comparison agrees with the one on the exact quotient, which is what
    is computed here. *)
Definition hours_of (duration_seconds : Z) : Q := inject_Z duration_seconds / 3600.

Definition get_marker_color (duration_seconds : option Z) : string :=
  match duration_seconds with
  | None => "gray"
  | Some d =>
      let hours := hours_of d in
      if Qlt_le_dec hours 2 then "green"
      else if Qlt_le_dec hours 4 then "orange"
      else "red"
  end.

Definition get_marker_icon (park_type : string) : string :=
  let icons : gmap string string :=
    {[ "beach" := "umbrella-beach"; "historical" := "landmark";
       "recreation" := "campground"; "reserve" := "leaf"; "park" := "tree" ]} in
  default "tree" (icons !! park_type).

(** ** Trip categorizer *)

Definition categorize_trip (duration_seconds : option Z) : string :=
  match duration_seconds with
  | None => "Unknown"
  | Some d =>
      let hours := hours_of d in
      if Qlt_le_dec hours 3 then "Day Trip"
      else if Qlt_le_dec hours 5 then "Weekend Trip"
      else "Multi-day Trip"
  end.

(** ** Report aggregator *)

(** The sort key [info.get("duration_seconds", float("inf"))]: an integer
    or positive infinity. *)
Inductive sort_key : Type :=
  | Finite (seconds : Z)
  | Infinity.

(** [a < b] on keys: integers by value, every integer below [inf], and
    [inf < inf] false. *)
Definition key_lt (a b : sort_key) : bool :=
  match a, b with
  | Finite x, Finite y => (x <? y)%Z
  | Finite _, Infinity => true
  | Infinity, _ => false
  end.

Definition key_le (a b : sort_key) : Prop := key_lt b a = false.

#[export] Instance sort_key_eq_dec : EqDecision sort_key.
Proof. solve_decision. Defined.

(** [drive_times.get(name, {}).get("duration_seconds")] *)
Definition duration_of (drive_times : gmap string drive_info) (name : string)
  : option Z :=
  duration_seconds (get_info drive_times name).

(** The order of the report on durations: ascending, a missing duration
    last. *)
Definition duration_le (a b : option Z) : Prop :=
  match a, b with
  | Some x, Some y => (x ≤ y)%Z
  | _, None => True
  | None, Some _ => False
  end.

(** A tuple [(park_name, duration, info)] of [sorted_parks]. *)
Definition report_entry : Type := string * sort_key * drive_info.

Definition entry_key (e : report_entry) : sort_key := e.1.2.

(** [list.sort(key=lambda x: x[1])] compares keys with [<] only and is
    stable. It is embedded as the insertion of each element, in list
    order, behind every element whose key is not greater, as the binary
    insertion does that CPython's sort applies to short runs. A stable
    sort has one possible result, so every list is sorted to the list
    computed here. *)
Fixpoint insort (x : report_entry) (l : list report_entry) : list report_entry :=
  match l with
  | [] => [x]
  | y :: l' =>
      if key_lt (entry_key x) (entry_key y) then x :: y :: l'
      else y :: insort x l'
  end.

Definition sort_by_key (l : list report_entry) : list report_entry :=
  fold_left (λ acc x, insort x acc) l [].

(** The tuple the first loop of [generate_report] appends for a park. *)
Definition make_entry (drive_times : gmap string drive_info) (park_name : string)
  : report_entry :=
  let info := get_info drive_times park_name in
  let duration := from_option Finite Infinity (duration_seconds info) in
  (park_name, duration, info).

(** The list [sorted_parks] before it is sorted. *)
Definition unsorted_parks (parks : list (string * park_value))
    (drive_times : gmap string drive_info) : list report_entry :=
  fold_left (λ sorted_parks park_name,
               sorted_parks ++ [make_entry drive_times park_name])
            parks.*1 [].

Definition sorted_parks (parks : list (string * park_value))
    (drive_times : gmap string drive_info) : list report_entry :=
  sort_by_key (unsorted_parks parks drive_times).

Definition CATEGORIES : list string :=
  ["Day Trip"; "Weekend Trip"; "Multi-day Trip"; "Unknown"].

(** [categories[category]]; every key read is one of the four the dict is
    created with. *)
Definition members (categories : gmap string (list (string * drive_info)))
    (category : string) : list (string * drive_info) :=
  default [] (categories !! category).

(** The grouping loop of [generate_report]. *)
Definition group_by_category (sorted : list report_entry)
  : gmap string (list (string * drive_info)) :=
  fold_left (λ categories '(park_name, duration, info),
               let category := categorize_trip (duration_seconds info) in
               <[category := members categories category ++ [(park_name, info)]]>
                 categories)
            sorted
            {[ "Day Trip" := []; "Weekend Trip" := []; "Multi-day Trip" := [];
               "Unknown" := [] ]}.

(** [info.get("duration_text", "N/A")] and [info.get("distance_text", "N/A")] *)
Definition duration_label (info : drive_info) : string :=
  default "N/A" (duration_text info).

Definition distance_label (info : drive_info) : string :=
  default "N/A" (distance_text info).

Definition RULE_EQ : string := repeat_string "=" 60.
Definition RULE_DASH : string := repeat_string "-" 60.

(** The lines from the banner to the blank line before the summary. *)
Definition banner_lines (parks : list (string * park_value)) : list string :=
  [ RULE_EQ; "CALIFORNIA STATE PARKS TRIP PLANNER"; RULE_EQ;
    LF +:+ "Starting from: " +:+ MY_ADDRESS;
    "Total parks: " +:+ pretty (length parks);
    "" ].

(** One round of the summary loop. *)
Definition summary_step (categories : gmap string (list (string * drive_info)))
    (lines : list string) (category : string) : list string :=
  let count := length (members categories category) in
  if decide (0 < count)%nat
  then lines ++ ["  " +:+ category +:+ ": " +:+ pretty count +:+ " parks"]
  else lines.

Definition summary_section (categories : gmap string (list (string * drive_info)))
    (lines : list string) : list string :=
  let lines := lines ++ [RULE_DASH; "SUMMARY BY TRIP TYPE"; RULE_DASH] in
  let lines := fold_left (summary_step categories) CATEGORIES lines in
  lines ++ [""].

(** The two lines of a park in a detailed listing. *)
Definition detail_step (lines : list string) (entry : string * drive_info)
  : list string :=
  let '(park_name, info) := entry in
  let duration := duration_label info in
  let distance := distance_label info in
  lines ++ [ "  " +:+ park_name;
             "    Drive: " +:+ duration +:+ " | Distance: " +:+ distance ].

(** One round of the loop over the three listed categories. *)
Definition listing_step (categories : gmap string (list (string * drive_info)))
    (lines : list string) (category : string) : list string :=
  match members categories category with
  | [] => lines
  | listed =>
      let lines :=
        lines ++ [ RULE_DASH; upper category +:+ "S (sorted by drive time)";
                   RULE_DASH ] in
      let lines := fold_left detail_step listed lines in
      lines ++ [""]
  end.

Definition LISTED : list string := ["Day Trip"; "Weekend Trip"; "Multi-day Trip"].

Definition detailed_listings (categories : gmap string (list (string * drive_info)))
    (lines : list string) : list string :=
  fold_left (listing_step categories) LISTED lines.

(** The category a name gets from the drive-time cache:
    [categorize_trip(drive_times.get(p, {}).get("duration_seconds"))]. *)
Definition category_of (drive_times : gmap string drive_info) (p : string) : string :=
  categorize_trip (duration_seconds (get_info drive_times p)).

(** The list comprehension [multi_day_clusters]. *)
Definition multi_day_clusters (drive_times : gmap string drive_info)
    (clusters : list (list string)) : list (list string) :=
  filter (λ c, (1 < length c)%nat ∧
               Exists (λ p, category_of drive_times p = "Multi-day Trip") c)
         clusters.

Definition member_step (drive_times : gmap string drive_info)
    (lines : list string) (park_name : string) : list string :=
  let info := get_info drive_times park_name in
  let duration := duration_label info in
  lines ++ ["    - " +:+ park_name +:+ " (" +:+ duration +:+ ")"].

(** One round of [for i, cluster in enumerate(multi_day_clusters, 1)]; the
    state carries the counter of [enumerate]. *)
Definition cluster_step (drive_times : gmap string drive_info)
    (st : nat * list string) (cluster : list string) : nat * list string :=
  let '(i, lines) := st in
  let lines :=
    lines ++ [ LF +:+ "  Cluster " +:+ pretty i +:+ ": (" +:+
               pretty (length cluster) +:+ " parks)" ] in
  (S i, fold_left (member_step drive_times) cluster lines).

Definition cluster_section (drive_times : gmap string drive_info)
    (clusters : list (list string)) (lines : list string) : list string :=
  match multi_day_clusters drive_times clusters with
  | [] => lines
  | selected =>
      let lines :=
        lines ++ [ RULE_DASH; "SUGGESTED MULTI-DAY TRIP CLUSTERS";
                   "(Parks within 30 miles of each other)"; RULE_DASH ] in
      (fold_left (cluster_step drive_times) selected (1%nat, lines)).2
  end.

Definition footer_lines : list string :=
  [ ""; RULE_EQ; "Map available at: output/parks_map.html"; RULE_EQ ].

(** The list [lines] of [generate_report] when the report is joined. *)
Definition report_lines (parks : list (string * park_value))
    (drive_times : gmap string drive_info) (clusters : list (list string))
  : list string :=
  let categories := group_by_category (sorted_parks parks drive_times) in
  let lines := banner_lines parks in
  let lines := summary_section categories lines in
  let lines := detailed_listings categories lines in
  let lines := cluster_section drive_times clusters lines in
  lines ++ footer_lines.

(** [report_text], the text [generate_report] prints and writes to
    [REPORT_FILE]. *)
Definition generate_report (parks : list (string * park_value))
    (drive_times : gmap string drive_info) (clusters : list (list string))
  : string :=
  join_lines (report_lines parks drive_times clusters).

(** ** Collaborators, files and exceptions *)

(** A call of the Google Maps client either returns or raises an exception
    whose text is [message]. *)
Inductive response (A : Type) : Type :=
  | Returns (a : A)
  | Throws (message : string).
Arguments Returns {A} a.
Arguments Throws {A} message.

(** The element [result["rows"][0]["elements"][0]] of a distance-matrix
    answer: status ["OK"] with its duration and distance, or another
    status. *)
Inductive route_element : Type :=
  | RouteOK (duration_value : Z) (duration_text : string)
            (distance_value : Z) (distance_text : string)
  | RouteNotOK.

(** The client [gmaps]: [geocode] answers with the locations
    [r["geometry"]["location"]] of its results, best match first. *)
Class Client : Type := {
  geocode : string → response (list (float * float));
  distance_matrix : float * float → float * float → response route_element
}.

(** A marker added to the folium map, and the map as its markers. *)
Record marker : Type := Marker {
  location : float * float;
  popup : string;
  color : string;
  icon : string
}.

(** The files the program reads and writes; [None] is a file that does
    not exist. *)
Record files : Type := Files {
  PARKS_FILE : option (list (string * park_value));
  DRIVE_TIMES_FILE : option (gmap string drive_info);
  MAP_FILE : option (list marker);
  REPORT_FILE : option string
}.

Inductive exn : Type :=
  | ValueError (msg : string)
  | KeyError (key : string)
  | FileNotFoundError (path : string)
  | ProviderError (msg : string).

Inductive result (A : Type) : Type :=
  | Ok (a : A)
  | Raise (e : exn).
Arguments Ok {A} a.
Arguments Raise {A} e.

(** Computations that read and write the files and may raise. *)
Definition io (A : Type) : Type := files → result A * files.

#[export] Instance io_ret : MRet io := λ A a fs, (Ok a, fs).
#[export] Instance io_bind : MBind io := λ A B k m fs,
  match m fs with
  | (Ok a, fs') => k a fs'
  | (Raise e, fs') => (Raise e, fs')
  end.

Definition raise {A : Type} (e : exn) : io A := λ fs, (Raise e, fs).
Definition read_files : io files := λ fs, (Ok fs, fs).
Definition write_files (f : files → files) : io unit := λ fs, (Ok (), f fs).

Definition load_parks : io (list (string * park_value)) :=
  fs ← read_files;
  match PARKS_FILE fs with
  | Some parks => mret parks
  | None => raise (FileNotFoundError "res/parks.json")
  end.

Definition save_parks (parks : list (string * park_value)) : io unit :=
  write_files (λ fs, Files (Some parks) (DRIVE_TIMES_FILE fs) (MAP_FILE fs)
                           (REPORT_FILE fs)).

Definition load_drive_times : io (gmap string drive_info) :=
  fs ← read_files;
  mret (default ∅ (DRIVE_TIMES_FILE fs)).

Definition save_drive_times (drive_times : gmap string drive_info) : io unit :=
  write_files (λ fs, Files (PARKS_FILE fs) (Some drive_times) (MAP_FILE fs)
                           (REPORT_FILE fs)).

(** [parks[park_name] = value] on a key the dict holds: the entry keeps
    its place. *)
Definition dict_set (park_name : string) (value : park_value)
    (parks : list (string * park_value)) : list (string * park_value) :=
  (λ '(name, old), if decide (name = park_name) then (name, value) else (name, old))
    <$> parks.

(** [value == "Y"] *)
Definition needs_geocoding (value : park_value) : bool :=
  match value with
  | Pending marker => bool_decide (marker = "Y")
  | Located _ _ | NotLocated _ => false
  end.

Section Pipeline.
Context `{M : Math} `{G : Client}.

(** What the [try] block of [geocode_parks] stores for a park. *)
Definition geocode_park (park_name : string) : park_value :=
  let search_query := park_name +:+ ", California" in
  match geocode search_query with
  | Returns (location :: _) => Located location.1 location.2
  | Returns [] => NotLocated "Not found"
  | Throws e => NotLocated e
  end.

(** One round of the loop of [geocode_parks]; the state is the dict and
    the flag [updated]. *)
Definition geocode_step (st : list (string * park_value) * bool)
    (item : string * park_value) : list (string * park_value) * bool :=
  let '(parks, updated) := st in
  let '(park_name, value) := item in
  if needs_geocoding value
  then (dict_set park_name (geocode_park park_name) parks, true)
  else (parks, updated).

Definition geocode_parks (parks : list (string * park_value))
  : io (list (string * park_value)) :=
  let '(parks, updated) := fold_left geocode_step parks (parks, false) in
  _ ← (if updated then save_parks parks else mret ());
  mret parks.

Definition geocode_home : io (float * float) :=
  match geocode MY_ADDRESS with
  | Throws e => raise (ProviderError e)
  | Returns result =>
      match result with
      | location :: _ => mret (location.1, location.2)
      | [] => raise (ValueError ("Could not geocode home address: " +:+ MY_ADDRESS))
      end
  end.

(** What the [try] block of [get_drive_times] stores for a park. *)
Definition fetch_drive_time (home_coords coords : float * float) : drive_info :=
  match distance_matrix home_coords coords with
  | Returns (RouteOK dv dt mv mt) => route_info dv dt mv mt
  | Returns RouteNotOK => error_info "Route not found"
  | Throws e => error_info e
  end.

Definition drive_time_step (home_coords : float * float)
    (st : gmap string drive_info * bool) (item : string * park_value)
  : gmap string drive_info * bool :=
  let '(drive_times, updated) := st in
  let '(park_name, coords) := item in
  if decide (park_name ∈ dom drive_times) then (drive_times, updated)
  else match resolved_coords coords with
       | None => (drive_times, updated)
       | Some c => (<[park_name := fetch_drive_time home_coords c]> drive_times, true)
       end.

Definition get_drive_times (home_coords : float * float)
    (parks : list (string * park_value)) : io (gmap string drive_info) :=
  drive_times ← load_drive_times;
  let '(drive_times, updated) :=
    fold_left (drive_time_step home_coords) parks (drive_times, false) in
  _ ← (if updated then save_drive_times drive_times else mret ());
  mret drive_times.

(** The popup text of a park's marker; reading [distance_text] from an
    entry that has [duration_text] without it raises [KeyError]. *)
Definition popup_html (park_name : string) (drive_info : drive_info)
  : result string :=
  let popup_html := "<b>" +:+ park_name +:+ "</b><br>" in
  match duration_text drive_info with
  | Some dtext =>
      match distance_text drive_info with
      | Some mtext =>
          Ok (popup_html +:+ "Drive: " +:+ dtext +:+ "<br>" +:+
              "Distance: " +:+ mtext)
      | None => Raise (KeyError "distance_text")
      end
  | None =>
      match error drive_info with
      | Some _ => Ok (popup_html +:+ "<i>Route unavailable</i>")
      | None => Ok popup_html
      end
  end.

Definition marker_step (drive_times : gmap string drive_info)
    (st : result (list marker)) (item : string * park_value)
  : result (list marker) :=
  match st with
  | Raise e => Raise e
  | Ok m =>
      let '(park_name, coords) := item in
      match resolved_coords coords with
      | None => Ok m
      | Some c =>
          let park_type := get_park_type park_name in
          let drive_info := get_info drive_times park_name in
          let color := get_marker_color (duration_seconds drive_info) in
          match popup_html park_name drive_info with
          | Raise e => Raise e
          | Ok html => Ok (m ++ [Marker c html color (get_marker_icon park_type)])
          end
      end
  end.

Definition generate_map (home_coords : float * float)
    (parks : list (string * park_value))
    (drive_times : gmap string drive_info) : io unit :=
  let m := [Marker home_coords ("<b>Home</b><br>" +:+ MY_ADDRESS) "blue" "home"] in
  match fold_left (marker_step drive_times) parks (Ok m) with
  | Raise e => raise e
  | Ok m =>
      write_files (λ fs, Files (PARKS_FILE fs) (DRIVE_TIMES_FILE fs) (Some m)
                               (REPORT_FILE fs))
  end.

(** The last step of [generate_report]: the text goes to [REPORT_FILE]. *)
Definition write_report (parks : list (string * park_value))
    (drive_times : gmap string drive_info) (clusters : list (list string))
  : io unit :=
  let report_text := generate_report parks drive_times clusters in
  write_files (λ fs, Files (PARKS_FILE fs) (DRIVE_TIMES_FILE fs) (MAP_FILE fs)
                           (Some report_text)).

(** [main]; [GOOGLE_MAPS_API_KEY] is the value of [os.getenv], [None]
    when the variable is not set. *)
Definition main (GOOGLE_MAPS_API_KEY : option string) : io unit :=
  if bool_decide (default "" GOOGLE_MAPS_API_KEY = "") then mret ()
  else if bool_decide (MY_ADDRESS = "") then mret ()
  else
    parks ← load_parks;
    parks ← geocode_parks parks;
    home_coords ← geocode_home;
    drive_times ← get_drive_times home_coords parks;
    let clusters := cluster_parks parks CLUSTER_THRESHOLD_MILES in
    _ ← generate_map home_coords parks drive_times;
    write_report parks drive_times clusters.

End Pipeline.

(** ** The report as the specification describes it

    The sections of the report written from the specification's words,
    from the input mappings alone; the theorems below compare them with the
    lines [generate_report] builds. *)
Section ReportSpec.
Variables (parks : list (string * park_value)) (drive_times : gmap string drive_info).

(** The parks of a category, in the order of the sorted list. *)
Definition listed_in (category : string) : list string :=
  filter (λ p, category_of drive_times p = category)
         (sorted_parks parks drive_times).*1.*1.

(** The number of parks of the input mapping that fall in a category. *)
Definition category_count (category : string) : nat :=
  length (filter (λ p, category_of drive_times p = category) parks.*1).

(** The count line of a category: present only for a positive count. *)
Definition summary_line (category : string) : list string :=
  if decide (0 < category_count category)%nat
  then ["  " +:+ category +:+ ": " +:+ pretty (category_count category)
             +:+ " parks"]
  else [].

Definition summary_spec : list string :=
  [RULE_DASH; "SUMMARY BY TRIP TYPE"; RULE_DASH] ++
  summary_line "Day Trip" ++ summary_line "Weekend Trip" ++
  summary_line "Multi-day Trip" ++ summary_line "Unknown" ++ [""].

(** The two lines of a park: its name, then duration and distance text
    or [N/A]. *)
Definition park_lines (p : string) : list string :=
  [ "  " +:+ p;
    "    Drive: " +:+ duration_label (get_info drive_times p) +:+
    " | Distance: " +:+ distance_label (get_info drive_times p) ].

(** The detailed section of a category: nothing when it has no park. *)
Definition listing_spec (category : string) : list string :=
  match listed_in category with
  | [] => []
  | listed =>
      [RULE_DASH; upper category +:+ "S (sorted by drive time)"; RULE_DASH] ++
      concat (park_lines <$> listed) ++ [""]
  end.

Definition listings_spec : list string :=
  listing_spec "Day Trip" ++ listing_spec "Weekend Trip" ++
  listing_spec "Multi-day Trip".

(** A cluster is suggested when it has more than one member and one of
    them is a multi-day trip. *)
Definition suggested (c : list string) : Prop :=
  (1 < length c)%nat ∧
  ∃ p, p ∈ c ∧ category_of drive_times p = "Multi-day Trip".

(** The lines of the cluster numbered [i]: its heading, then every
    member with its duration text or [N/A]. *)
Definition cluster_lines (i : nat) (c : list string) : list string :=
  (LF +:+ "  Cluster " +:+ pretty i +:+ ": (" +:+ pretty (length c) +:+ " parks)")
  :: ((λ p, "    - " +:+ p +:+ " (" +:+
            duration_label (get_info drive_times p) +:+ ")") <$> c).

(** The suggested clusters, numbered from 1 in the order given. *)
Definition clusters_spec (selected : list (list string)) : list string :=
  match selected with
  | [] => []
  | _ =>
      [ RULE_DASH; "SUGGESTED MULTI-DAY TRIP CLUSTERS";
        "(Parks within 30 miles of each other)"; RULE_DASH ] ++
      concat (imap (λ k c, cluster_lines (S k) c) selected)
  end.

End ReportSpec.

(** The example of the specification: X two hours away, Y six hours away
    and Z without a drive time. *)
Definition xyz_parks : list (string * park_value) :=
  [ ("X", Located 37 (-122)); ("Y", Located 34 (-118));
    ("Z", NotLocated "Not found") ].

Definition xyz_drive_times : gmap string drive_info :=
  {[ "X" := route_info 7200 "2 hours 0 mins" 160934 "100 mi";
     "Y" := route_info 21600 "6 hours 0 mins" 640000 "398 mi" ]}.

(** What the report reads of the drive-time cache about a name: the
    duration, and the two texts with their [N/A] default. Two caches agree
    on a name when these are the same. *)
Definition same_report_fields (drive_times1 drive_times2 : gmap string drive_info)
    (name : string) : Prop :=
  duration_of drive_times1 name = duration_of drive_times2 name ∧
  duration_label (get_info drive_times1 name)
    = duration_label (get_info drive_times2 name) ∧
  distance_label (get_info drive_times1 name)
    = distance_label (get_info drive_times2 name).

(** ** Auxiliary notions of the proofs *)

(** The loop invariant of [cluster_parks]: the clusters built so far are
    pairwise disjoint lists without repetition, of names of [valid], and
    [assigned] is the set of their members. *)
Definition clusters_inv (valid : list (string * (float * float)))
    (st : list (list string) * gset string) : Prop :=
  NoDup (concat st.1) ∧
  (∀ x, x ∈ st.2 ↔ x ∈ concat st.1) ∧
  (∀ x, x ∈ concat st.1 → x ∈ valid.*1).

(** The order of the tuples by their keys. *)
Definition entry_le (x y : report_entry) : Prop :=
  key_le (entry_key x) (entry_key y).

(** The pair a tuple of [sorted_parks] leaves in its category. *)
Definition entry_pair (e : report_entry) : string * drive_info := (e.1.1, e.2).

Section Geocoded.
Context `{G : Client}.

(** The names the loop of [geocode_parks] looks up. *)
Definition pending_names (items : list (string * park_value)) : list string :=
  (filter (λ item, needs_geocoding item.2 = true) items).*1.

(** The entry of the dict once the names [pending] have been looked up. *)
Definition geocoded (pending : list string) (item : string * park_value)
  : string * park_value :=
  if decide (item.1 ∈ pending) then (item.1, geocode_park item.1) else item.

End Geocoded.

Section ClusterShapeNotions.
Context `{M : Math}.

(** [distance <= threshold_miles] for two coordinates. *)
Definition within (threshold_miles : float) (c1 c2 : float * float) : bool :=
  PrimFloat.leb (haversine_distance c1.1 c1.2 c2.1 c2.2) threshold_miles.

(** What the outer loop keeps true of the cluster at every index: it is a
    seed followed by parks within the threshold of the seed, and every park
    outside the clusters up to that index is not within the threshold of
    the seed. *)
Definition seeded (valid : list (string * (float * float))) (thr : float) (clusters : list (list string)) : Prop :=
  ∀ i c, clusters !! i = Some c →
    ∃ seed cs rest,
      c = seed :: rest ∧ (seed, cs) ∈ valid ∧
      (∀ m, m ∈ rest → ∃ cm, (m, cm) ∈ valid ∧ within thr cs cm = true) ∧
      (∀ m cm, (m, cm) ∈ valid → m ∉ concat (take (S i) clusters) →
               within thr cs cm = false).

End ClusterShapeNotions.

(** An entry from which [generate_map] can build a popup: one that has
    [distance_text] whenever it has [duration_text]. *)
Definition route_complete (info : drive_info) : Prop :=
  is_Some (duration_text info) → is_Some (distance_text info).

(** A cache that holds entries only for parks with a resolved
    coordinate. *)
Definition cache_consistent (parks : list (string * park_value))
    (drive_times : gmap string drive_info) : Prop :=
  ∀ n, is_Some (drive_times !! n) →
       ∃ v, (n, v) ∈ parks ∧ is_Some (resolved_coords v).

(** ** Concrete data

    A stand-in for the math module on which distances can be evaluated:
    the small-angle reading [sin x = x], [atan2 y x = y] with angles counted
    in units of the Earth radius, its [cos] zero. Under it
    [haversine_distance] of two points is the difference of their
    latitudes, in miles. *)
Definition meridian_math : Math := {|
  radians := λ x, x;
  sin := λ x, x;
  cos := λ _, 0%float;
  sqrt := PrimFloat.sqrt;
  atan2 := λ y _, (y / 3959)%float;
  pow := λ x _, (x * x)%float
|}.

(** Three parks 20 miles apart on a meridian, and one that was not found. *)
Definition meridian_parks : list (string * park_value) :=
  [ ("A", Located 0 0); ("B", Located 20 0);
    ("Z", NotLocated "Not found"); ("C", Located 40 0) ].

(** A client that finds no place at all, and one that finds the home
    address and one park, finds nothing for a second park and fails on
    every other query. *)
Definition lost_client : Client := {|
  geocode := λ _, Returns [];
  distance_matrix := λ _ _, Returns RouteNotOK
|}.

Definition demo_client : Client := {|
  geocode := λ query,
    if decide (query = MY_ADDRESS) then Returns [(37%float, (-122)%float)]
    else if decide (query = "Big Basin Redwoods SP, California")
         then Returns [(37.25%float, (-122.25)%float)]
    else if decide (query = "Atlantis SP, California") then Returns []
    else Throws "timed out";
  distance_matrix := λ _ _, Returns (RouteOK 3600 "1 hour 0 mins" 48280 "30.0 mi")
|}.

Definition demo_files : files :=
  Files (Some [ ("Big Basin Redwoods SP", Pending "Y"); ("Atlantis SP", Pending "Y");
                ("El Dorado SP", Pending "Y") ])
        None None None.

(** An outcome that is an exception. *)
Definition raises {A : Type} (r : result A) : Prop :=
  match r with
  | Raise _ => True
  | Ok _ => False
  end.

(** A park whose lookup failed, with a drive time left in the cache from
    an earlier run in which it had a coordinate. *)
Definition stale_parks : list (string * park_value) :=
  [ ("Sinkyone Wilderness SP", NotLocated "Not found") ].

Definition stale_cache : gmap string drive_info :=
  {[ "Sinkyone Wilderness SP" := route_info 7200 "2 hours 0 mins" 160934 "100 mi" ]}.

Definition stale_files : files := Files (Some stale_parks) (Some stale_cache) None None.

(** * Properties *)

(** ** Trip categorizer *)

Lemma hours_lt (d n : Z) : (hours_of d < inject_Z n)%Q ↔ (d < 3600 * n)%Z.
Proof.
  unfold hours_of, Qlt, Qdiv, Qmult, Qinv, inject_Z; simpl. lia.
Qed.

Lemma categorize_trip_cases (d : Z) :
  categorize_trip (Some d) =
    if decide (d < 10800)%Z then "Day Trip"
    else if decide (d < 18000)%Z then "Weekend Trip"
    else "Multi-day Trip".
Proof.
  unfold categorize_trip; cbv zeta.
  destruct (Qlt_le_dec (hours_of d) 3) as [H3|H3].
  - apply (hours_lt d 3) in H3. rewrite decide_True; [done|lia].
  - apply Qle_not_lt in H3. rewrite (hours_lt d 3) in H3.
    rewrite decide_False; [|lia].
    destruct (Qlt_le_dec (hours_of d) 5) as [H5|H5].
    + apply (hours_lt d 5) in H5. rewrite decide_True; [done|lia].
    + apply Qle_not_lt in H5. rewrite (hours_lt d 5) in H5.
      rewrite decide_False; [done|lia].
Qed.

(** C3: [categorize_trip] answers ["Unknown"] for a missing duration,
    ["Day Trip"] below 10800 s, ["Weekend Trip"] from 10800 s up to but not
    including 18000 s, and ["Multi-day Trip"] from 18000 s on; in
    particular at 10799, 10800, 17999 and 18000. *)
Theorem categorize_trip_policy :
  categorize_trip None = "Unknown" ∧
  (∀ d : Z, (d < 10800)%Z → categorize_trip (Some d) = "Day Trip") ∧
  (∀ d : Z, (10800 ≤ d < 18000)%Z → categorize_trip (Some d) = "Weekend Trip") ∧
  (∀ d : Z, (18000 ≤ d)%Z → categorize_trip (Some d) = "Multi-day Trip") ∧
  categorize_trip (Some 10799%Z) = "Day Trip" ∧
  categorize_trip (Some 10800%Z) = "Weekend Trip" ∧
  categorize_trip (Some 17999%Z) = "Weekend Trip" ∧
  categorize_trip (Some 18000%Z) = "Multi-day Trip".
Proof.
  split; [reflexivity|].
  repeat split; try reflexivity; intros d Hd; rewrite categorize_trip_cases;
    repeat case_decide; (done || lia).
Qed.

(** ** Clustering engine *)

Section ClusteringFacts.
Context `{M : Math}.
Implicit Types (valid : list (string * (float * float))).
Implicit Types (clusters : list (list string)) (assigned : gset string).

(** The inner loop extends the cluster by names that were unassigned,
    each once, and marks exactly those. *)
Lemma scan_extends thr coords valid (cluster : list string) assigned :
  ∃ added,
    fold_left (scan_step thr coords) valid (cluster, assigned)
      = (cluster ++ added, list_to_set added ∪ assigned) ∧
    NoDup added ∧
    (∀ x, x ∈ added → (x ∉ assigned) ∧ x ∈ valid.*1).
Proof.
  revert cluster assigned.
  induction valid as [|[other_name other_coords] valid IH]; intros cluster assigned.
  - exists []. rewrite app_nil_r. simpl. split; [f_equal; set_solver|].
    split; [constructor|]. intros x Hx. by apply elem_of_nil in Hx.
  - simpl. destruct (decide (other_name ∈ assigned)) as [Hin|Hout].
    + destruct (IH cluster assigned) as (added & -> & Hnd & Hadd).
      exists added. repeat split; auto; [by apply Hadd|].
      apply elem_of_cons. right. by apply Hadd.
    + destruct (PrimFloat.leb _ thr).
      * destruct (IH (cluster ++ [other_name]) ({[other_name]} ∪ assigned))
          as (added & -> & Hnd & Hadd).
        exists (other_name :: added). rewrite <- app_assoc. simpl.
        split; [f_equal; set_solver|]. split.
        -- constructor; [|done]. intros Hx. apply Hadd in Hx. set_solver.
        -- intros x [->|Hx]%elem_of_cons.
           ++ split; [done|]. apply elem_of_cons. by left.
           ++ apply Hadd in Hx. split; [set_solver|].
              apply elem_of_cons. right. tauto.
      * destruct (IH cluster assigned) as (added & -> & Hnd & Hadd).
        exists added. repeat split; auto; [by apply Hadd|].
        apply elem_of_cons. right. by apply Hadd.
Qed.

Lemma seed_step_inv thr valid st (park : string * (float * float)) :
  clusters_inv valid st → park.1 ∈ valid.*1 →
  clusters_inv valid (seed_step thr valid st park) ∧
  park.1 ∈ (seed_step thr valid st park).2 ∧
  (∀ x, x ∈ st.2 → x ∈ (seed_step thr valid st park).2).
Proof.
  destruct st as [clusters assigned], park as [name coords].
  intros Hinv Hname. simpl in *.
  destruct (decide (name ∈ assigned)) as [Hin|Hout]; [by split|].
  destruct Hinv as (Hnd & Hass & Hsub); simpl in *.
  destruct (scan_extends thr coords valid [name] ({[name]} ∪ assigned))
    as (added & -> & Hnda & Hadd).
  assert (Hconcat : concat (clusters ++ [name :: added])
                    = concat clusters ++ name :: added).
  { by rewrite concat_app; simpl; rewrite app_nil_r. }
  split; [|set_solver]. unfold clusters_inv; simpl. rewrite Hconcat.
  repeat split.
  - apply NoDup_app. split; [done|]. split.
    + intros x Hx [->|Hx']%elem_of_cons.
      * apply Hout. by apply Hass.
      * apply Hadd in Hx'. apply Hass in Hx. set_solver.
    + constructor; [|done]. intros Hx. apply Hadd in Hx. set_solver.
  - intros Hx. apply elem_of_app.
    apply elem_of_union in Hx as [Hx|Hx].
    + right. apply elem_of_cons. right. by apply elem_of_list_to_set in Hx.
    + apply elem_of_union in Hx as [Hx|Hx].
      * right. apply elem_of_cons. left. set_solver.
      * left. by apply Hass.
  - intros [Hx|Hx]%elem_of_app.
    + apply Hass in Hx. set_solver.
    + apply elem_of_cons in Hx as [->|Hx]; [set_solver|].
      apply elem_of_union. left. by apply elem_of_list_to_set.
  - intros x [Hx|Hx]%elem_of_app; [by apply Hsub|].
    apply elem_of_cons in Hx as [->|Hx]; [done|]. by apply Hadd.
Qed.

Lemma seed_loop_inv thr valid (l : list (string * (float * float))) st :
  clusters_inv valid st → (∀ x, x ∈ l.*1 → x ∈ valid.*1) →
  clusters_inv valid (fold_left (seed_step thr valid) l st) ∧
  (∀ x, x ∈ st.2 ∨ x ∈ l.*1 → x ∈ (fold_left (seed_step thr valid) l st).2).
Proof.
  revert st. induction l as [|park l IH]; intros st Hinv Hl; simpl.
  - split; [done|]. intros x [Hx|Hx]; [done|]. by apply elem_of_nil in Hx.
  - destruct (seed_step_inv thr valid st park Hinv) as (Hinv' & Hp & Hmono).
    { apply Hl. simpl. apply elem_of_cons. by left. }
    destruct (IH (seed_step thr valid st park) Hinv') as (Hinv'' & Hall).
    { intros x Hx. apply Hl. simpl. apply elem_of_cons. by right. }
    split; [done|]. intros x [Hx|Hx]; apply Hall.
    + left. by apply Hmono.
    + simpl in Hx. apply elem_of_cons in Hx as [->|Hx]; [by left|by right].
Qed.

(** The clusters partition the names of the parks with a resolved
    coordinate. *)
Lemma cluster_parks_partition (parks : list (string * park_value)) thr :
  NoDup (concat (cluster_parks parks thr)) ∧
  (∀ x, x ∈ concat (cluster_parks parks thr) ↔ x ∈ (valid_parks parks).*1).
Proof.
  unfold cluster_parks; cbv zeta.
  destruct (seed_loop_inv thr (valid_parks parks) (valid_parks parks) ([], ∅))
    as ((Hnd & Hass & Hsub) & Hall).
  { repeat split; simpl; try constructor; set_solver. }
  { done. }
  split; [done|]. intros x. split; [apply Hsub|].
  intros Hx. apply Hass. apply Hall. by right.
Qed.

Lemma elem_of_valid_parks (parks : list (string * park_value)) name :
  name ∈ (valid_parks parks).*1 ↔
  ∃ coords, (name, coords) ∈ parks ∧ is_Some (resolved_coords coords).
Proof.
  unfold valid_parks. rewrite list_elem_of_fmap. split.
  - intros ([n c] & -> & Hin). apply list_elem_of_omap in Hin as ([n' v] & Hin & Hv).
    destruct (resolved_coords v) eqn:E; simplify_eq/=.
    exists v. by rewrite E.
  - intros (v & Hin & [c Hc]). exists (name, c). split; [done|].
    apply list_elem_of_omap. exists (name, v). by rewrite Hc.
Qed.

End ClusteringFacts.

Lemma elem_of_concat {A : Type} (x : A) (ls : list (list A)) :
  x ∈ concat ls ↔ ∃ l, x ∈ l ∧ l ∈ ls.
Proof.
  induction ls as [|c ls IH]; simpl.
  - split; [by intros ?%elem_of_nil|]. by intros (l & _ & ?%elem_of_nil).
  - rewrite elem_of_app, IH. split.
    + intros [Hx|(l & Hx & Hl)].
      * exists c. split; [done|]. apply elem_of_cons. by left.
      * exists l. split; [done|]. apply elem_of_cons. by right.
    + intros (l & Hx & [->|Hl]%elem_of_cons); [by left|]. right. eauto.
Qed.

(** Counting occurrences in lists without repetition. *)
Lemma filter_none {A : Type} (P : A → Prop) `{!∀ x, Decision (P x)} (l : list A) :
  (∀ x, x ∈ l → ¬ P x) → filter P l = [].
Proof.
  induction l as [|y l IH]; intros Hl; [done|].
  rewrite filter_cons_False.
  - apply IH. intros x Hx. apply Hl, elem_of_cons. by right.
  - apply Hl, elem_of_cons. by left.
Qed.

Lemma filter_eq_length_NoDup (l : list string) (x : string) :
  NoDup l → x ∈ l → length (filter (λ y, y = x) l) = 1%nat.
Proof.
  induction 1 as [|y l Hy Hnd IH]; [by intros ?%elem_of_nil|].
  intros [->|Hx]%elem_of_cons.
  - rewrite filter_cons_True; [|done]. simpl. f_equal.
    rewrite filter_none; [done|]. by intros z Hz ->.
  - rewrite filter_cons_False; [by apply IH|]. intros ->. done.
Qed.

Lemma filter_elem_length_NoDup (ls : list (list string)) (x : string) :
  NoDup (concat ls) → x ∈ concat ls → length (filter (λ c, x ∈ c) ls) = 1%nat.
Proof.
  induction ls as [|c ls IH]; simpl; [by intros _ ?%elem_of_nil|].
  intros (Hc & Hdisj & Hnd)%NoDup_app [Hx|Hx]%elem_of_app.
  - rewrite filter_cons_True; [|done]. simpl. f_equal.
    rewrite filter_none; [done|]. intros c' Hc' Hx'.
    apply (Hdisj x Hx). apply elem_of_concat. eauto.
  - rewrite filter_cons_False; [by apply IH|].
    intros Hx'. by apply (Hdisj x Hx').
Qed.

Lemma dict_functional {V : Type} (d : list (string * V)) k v1 v2 :
  NoDup d.*1 → (k, v1) ∈ d → (k, v2) ∈ d → v1 = v2.
Proof.
  induction d as [|[k' v'] d IH]; simpl; [by intros _ ?%elem_of_nil|].
  intros [Hk Hnd]%NoDup_cons [H1|H1]%elem_of_cons [H2|H2]%elem_of_cons.
  - congruence.
  - simplify_eq. destruct Hk. apply list_elem_of_fmap. by exists (k', v2).
  - simplify_eq. destruct Hk. apply list_elem_of_fmap. by exists (k', v1).
  - by apply IH.
Qed.

(** A park without a resolved coordinate is left out of every cluster. *)
Lemma unresolved_not_clustered `{M : Math} (parks : list (string * park_value))
    (threshold_miles : float) (name : string) (coords : park_value) :
  NoDup parks.*1 → (name, coords) ∈ parks → resolved_coords coords = None →
  ∀ c, c ∈ cluster_parks parks threshold_miles → name ∉ c.
Proof.
  intros Hdict Hin Hnone c Hc Hname.
  destruct (cluster_parks_partition parks threshold_miles) as [_ Hmem].
  assert (Hx : name ∈ concat (cluster_parks parks threshold_miles))
    by (apply elem_of_concat; eauto).
  apply Hmem, elem_of_valid_parks in Hx as (coords' & Hin' & Hres).
  rewrite (dict_functional parks name coords coords' Hdict Hin Hin') in Hnone.
  rewrite Hnone in Hres. by destruct Hres.
Qed.

(** C1: every park with a resolved coordinate is a member of exactly one
    cluster and occurs exactly once in all clusters together; a park
    without a resolved coordinate is a member of no cluster. *)
Theorem cluster_parks_exactly_once `{M : Math}
    (parks : list (string * park_value)) (threshold_miles : float)
    (name : string) (coords : park_value) :
  NoDup parks.*1 →
  (name, coords) ∈ parks →
  let clusters := cluster_parks parks threshold_miles in
  (is_Some (resolved_coords coords) →
     length (filter (λ c, name ∈ c) clusters) = 1%nat ∧
     length (filter (λ p, p = name) (concat clusters)) = 1%nat) ∧
  (resolved_coords coords = None → ∀ c, c ∈ clusters → name ∉ c).
Proof.
  intros Hdict Hin clusters.
  destruct (cluster_parks_partition parks threshold_miles) as [Hnd Hmem].
  fold clusters in Hnd, Hmem. split.
  - intros Hres.
    assert (Hx : name ∈ concat clusters).
    { apply Hmem, elem_of_valid_parks. eauto. }
    split; [by apply filter_elem_length_NoDup|by apply filter_eq_length_NoDup].
  - intros Hnone. by apply (unresolved_not_clustered parks _ name coords).
Qed.

Lemma cluster_parks_exactly_once_witness :
  length (filter (λ c, "A" ∈ c)
                 (@cluster_parks meridian_math meridian_parks 30)) = 1%nat ∧
  ∀ c, c ∈ @cluster_parks meridian_math meridian_parks 30 → "Z" ∉ c.
Proof.
  split.
  - apply (@cluster_parks_exactly_once meridian_math meridian_parks 30 "A"
             (Located 0 0)).
    + apply (bool_decide_unpack _). vm_compute. exact I.
    + apply list_elem_of_In. simpl. tauto.
    + simpl. eauto.
  - apply (@cluster_parks_exactly_once meridian_math meridian_parks 30 "Z"
             (NotLocated "Not found")).
    + apply (bool_decide_unpack _). vm_compute. exact I.
    + apply list_elem_of_In. simpl. tauto.
    + reflexivity.
Defined.

(** The steps of the two loops, case by case. *)
Section Steps.
Context `{M : Math}.

Lemma scan_step_skip thr coords (cluster : list string) (assigned : gset string)
    other_name other_coords :
  other_name ∈ assigned →
  scan_step thr coords (cluster, assigned) (other_name, other_coords)
    = (cluster, assigned).
Proof. intros H. unfold scan_step. by rewrite decide_True. Qed.

Lemma scan_step_join thr coords (cluster : list string) (assigned : gset string)
    other_name other_coords :
  other_name ∉ assigned →
  PrimFloat.leb (haversine_distance coords.1 coords.2
                                    other_coords.1 other_coords.2) thr = true →
  scan_step thr coords (cluster, assigned) (other_name, other_coords)
    = (cluster ++ [other_name], {[other_name]} ∪ assigned).
Proof. intros H Hd. unfold scan_step. rewrite decide_False by done. by rewrite Hd. Qed.

Lemma scan_step_far thr coords (cluster : list string) (assigned : gset string)
    other_name other_coords :
  other_name ∉ assigned →
  PrimFloat.leb (haversine_distance coords.1 coords.2
                                    other_coords.1 other_coords.2) thr = false →
  scan_step thr coords (cluster, assigned) (other_name, other_coords)
    = (cluster, assigned).
Proof. intros H Hd. unfold scan_step. rewrite decide_False by done. by rewrite Hd. Qed.

Lemma seed_step_skip thr valid (clusters : list (list string))
    (assigned : gset string) name coords :
  name ∈ assigned →
  seed_step thr valid (clusters, assigned) (name, coords) = (clusters, assigned).
Proof. intros H. unfold seed_step. by rewrite decide_True. Qed.

Lemma seed_step_new thr valid (clusters : list (list string))
    (assigned : gset string) name coords :
  name ∉ assigned →
  seed_step thr valid (clusters, assigned) (name, coords)
    = (clusters ++ [(fold_left (scan_step thr coords) valid
                               ([name], {[name]} ∪ assigned)).1],
       (fold_left (scan_step thr coords) valid ([name], {[name]} ∪ assigned)).2).
Proof.
  intros H. unfold seed_step. rewrite decide_False by done.
  by destruct (fold_left _ _ _).
Qed.
End Steps.

(** C2: with d(A,B) = 20, d(B,C) = 20 and d(A,C) = 40 miles and the
    threshold 30, the input order A, B, C gives the cluster [A, B] and then
    [C]: membership is tested against the seed A only. *)
Theorem cluster_parks_seed_only `{M : Math} (A B C : string)
    (latA lngA latB lngB latC lngC : float) :
  A ≠ B → A ≠ C → B ≠ C →
  haversine_distance latA lngA latB lngB = 20%float →
  haversine_distance latB lngB latC lngC = 20%float →
  haversine_distance latA lngA latC lngC = 40%float →
  cluster_parks [ (A, Located latA lngA); (B, Located latB lngB);
                  (C, Located latC lngC) ] 30
    = [[A; B]; [C]].
Proof.
  intros HAB HAC HBC dAB dBC dAC.
  unfold cluster_parks; cbv zeta.
  change (valid_parks _)
    with [(A, (latA, lngA)); (B, (latB, lngB)); (C, (latC, lngC))].
  set (valid := [(A, (latA, lngA)); (B, (latB, lngB)); (C, (latC, lngC))]).
  assert (HscanA : fold_left (scan_step 30 (latA, lngA)) valid ([A], {[A]} ∪ ∅)
                   = ([A; B], {[B]} ∪ ({[A]} ∪ ∅))).
  { unfold valid; cbn [fold_left].
    rewrite scan_step_skip by set_solver.
    rewrite scan_step_join by (set_solver || (simpl; by rewrite dAB)).
    rewrite scan_step_far by (set_solver || (simpl; by rewrite dAC)).
    reflexivity. }
  assert (HscanC : fold_left (scan_step 30 (latC, lngC)) valid
                     ([C], {[C]} ∪ ({[B]} ∪ ({[A]} ∪ ∅)))
                   = ([C], {[C]} ∪ ({[B]} ∪ ({[A]} ∪ ∅)))).
  { unfold valid; cbn [fold_left]. by rewrite !scan_step_skip by set_solver. }
  unfold valid at 2; cbn [fold_left].
  rewrite seed_step_new by set_solver. rewrite HscanA. cbn [app fst snd].
  rewrite seed_step_skip by set_solver.
  rewrite seed_step_new by set_solver. rewrite HscanC.
  reflexivity.
Qed.

Lemma cluster_parks_seed_only_witness :
  @cluster_parks meridian_math
    [("A", Located 0 0); ("B", Located 20 0); ("C", Located 40 0)] 30
  = [["A"; "B"]; ["C"]].
Proof.
  apply (@cluster_parks_seed_only meridian_math "A" "B" "C" 0 0 20 0 40 0);
    (discriminate || reflexivity).
Defined.

(** ** Report aggregator: the order of the parks *)

Lemma filter_fmap {A B : Type} (f : A → B) (P : B → Prop)
    `{!∀ y, Decision (P y)} (l : list A) :
  filter P (f <$> l) = f <$> filter (P ∘ f) l.
Proof.
  induction l as [|x l IH]; [done|].
  rewrite fmap_cons, !filter_cons, IH. simpl.
  destruct (decide (P (f x))); by rewrite ?fmap_cons.
Qed.

Lemma fold_left_snoc {A B : Type} (f : A → B) (l : list A) (acc : list B) :
  fold_left (λ acc x, acc ++ [f x]) l acc = acc ++ (f <$> l).
Proof.
  revert acc. induction l as [|x l IH]; intros acc; simpl.
  - by rewrite app_nil_r.
  - by rewrite IH, <- app_assoc.
Qed.

Lemma StronglySorted_lookup_lt {A : Type} (R : A → A → Prop) (l : list A)
    (i j : nat) (a b : A) :
  StronglySorted R l → (i < j)%nat → l !! i = Some a → l !! j = Some b → R a b.
Proof.
  intros Hs. revert i j. induction Hs as [|x l Hs IH Hall]; intros i j Hij Hi Hj.
  - by rewrite lookup_nil in Hi.
  - destruct j as [|j]; [lia|]. simpl in Hj. destruct i as [|i]; simpl in Hi.
    + simplify_eq. rewrite Forall_forall in Hall. apply Hall.
      by eapply list_elem_of_lookup_2.
    + apply (IH i j); [lia|done|done].
Qed.

Section SortFacts.
Implicit Types (a b c : sort_key) (x y : report_entry) (l : list report_entry).

Lemma key_le_refl a : key_le a a.
Proof. destruct a; unfold key_le; simpl; [lia|done]. Qed.

Lemma key_le_trans a b c : key_le a b → key_le b c → key_le a c.
Proof. destruct a, b, c; unfold key_le; simpl; try done; lia. Qed.

Lemma key_lt_le a b : key_lt a b = true → key_le a b.
Proof. destruct a, b; unfold key_le; simpl; try done; lia. Qed.

Lemma key_le_finite (s t : Z) : key_le (Finite s) (Finite t) ↔ (s ≤ t)%Z.
Proof. unfold key_le; simpl. lia. Qed.

Lemma insort_perm x l : insort x l ≡ₚ x :: l.
Proof.
  induction l as [|y l IH]; simpl; [done|].
  destruct (key_lt _ _); [done|]. rewrite IH. apply Permutation_swap.
Qed.

Lemma insort_sorted x l :
  StronglySorted entry_le l → StronglySorted entry_le (insort x l).
Proof.
  induction 1 as [|y l Hs IH Hall]; simpl.
  - repeat constructor.
  - destruct (key_lt (entry_key x) (entry_key y)) eqn:E.
    + constructor; [by constructor|]. constructor; [by apply key_lt_le|].
      eapply Forall_impl; [exact Hall|]. intros z Hz.
      eapply key_le_trans; [by apply key_lt_le|exact Hz].
    + constructor; [done|]. rewrite insort_perm. by constructor.
Qed.

(** Stability of one insertion: among the entries of any one key, [x]
    comes last. *)
Lemma insort_stable a x l :
  StronglySorted entry_le l →
  filter (λ e, entry_key e = a) (insort x l)
    = filter (λ e, entry_key e = a) l ++ filter (λ e, entry_key e = a) [x].
Proof.
  induction 1 as [|y l Hs IH Hall]; simpl; [done|].
  destruct (key_lt (entry_key x) (entry_key y)) eqn:E.
  - destruct (decide (entry_key x = a)) as [Ha|Ha].
    + rewrite (filter_cons_True _ x), (filter_cons_True _ x [])
        by done.
      rewrite (filter_none _ (y :: l)); [done|].
      intros z Hz Hza. assert (Hyz : entry_le y z).
      { apply elem_of_cons in Hz as [->|Hz]; [apply key_le_refl|].
        rewrite Forall_forall in Hall. by apply Hall. }
      unfold entry_le, key_le in Hyz. congruence.
    + rewrite (filter_cons_False _ x), (filter_cons_False _ x [])
        by done.
      by rewrite filter_nil, app_nil_r.
  - rewrite !(filter_cons _ y), IH. by destruct (decide (entry_key y = a)).
Qed.

Lemma sort_loop_spec l acc :
  StronglySorted entry_le acc →
  StronglySorted entry_le (fold_left (λ acc x, insort x acc) l acc) ∧
  fold_left (λ acc x, insort x acc) l acc ≡ₚ acc ++ l ∧
  ∀ a, filter (λ e, entry_key e = a) (fold_left (λ acc x, insort x acc) l acc)
       = filter (λ e, entry_key e = a) acc ++ filter (λ e, entry_key e = a) l.
Proof.
  revert acc. induction l as [|x l IH]; intros acc Hacc; simpl.
  - rewrite app_nil_r. split; [done|]. split; [done|].
    intros a. by rewrite filter_nil, app_nil_r.
  - destruct (IH (insort x acc) (insort_sorted x acc Hacc)) as (Hs & Hp & Hf).
    split; [done|]. split.
    + rewrite Hp, insort_perm. simpl. apply Permutation_middle.
    + intros a. rewrite Hf, insort_stable by done.
      change (x :: l) with ([x] ++ l). by rewrite filter_app, app_assoc.
Qed.

(** [list.sort]: sorted, a permutation, and stable. *)
Lemma sort_by_key_spec l :
  StronglySorted entry_le (sort_by_key l) ∧
  sort_by_key l ≡ₚ l ∧
  ∀ a, filter (λ e, entry_key e = a) (sort_by_key l)
       = filter (λ e, entry_key e = a) l.
Proof.
  destruct (sort_loop_spec l []) as (Hs & Hp & Hf); [constructor|].
  split; [done|]. split; [done|]. intros a. by rewrite Hf.
Qed.

End SortFacts.

Section ReportOrder.
Variables (parks : list (string * park_value)) (drive_times : gmap string drive_info).

Lemma make_entry_names (l : list string) :
  (make_entry drive_times <$> l).*1.*1 = l.
Proof.
  induction l as [|n l IH]; [done|]. rewrite !fmap_cons, IH. done.
Qed.

Lemma unsorted_parks_eq :
  unsorted_parks parks drive_times = make_entry drive_times <$> parks.*1.
Proof. unfold unsorted_parks. by rewrite fold_left_snoc. Qed.

Lemma sorted_parks_perm :
  sorted_parks parks drive_times ≡ₚ make_entry drive_times <$> parks.*1.
Proof.
  unfold sorted_parks. rewrite <- unsorted_parks_eq.
  apply sort_by_key_spec.
Qed.

(** Every tuple of [sorted_parks] is the one made for its name. *)
Lemma sorted_parks_entries :
  sorted_parks parks drive_times
    = make_entry drive_times <$> (sorted_parks parks drive_times).*1.*1.
Proof.
  rewrite <- !list_fmap_compose.
  rewrite <- (list_fmap_id (sorted_parks parks drive_times)) at 1.
  apply Forall_fmap_ext, Forall_forall. intros e He.
  rewrite sorted_parks_perm in He.
  apply list_elem_of_fmap in He as (n & -> & _). done.
Qed.

Lemma make_entry_key (n : string) :
  entry_key (make_entry drive_times n)
    = from_option Finite Infinity (duration_of drive_times n).
Proof. done. Qed.

Lemma make_entry_key_iff (n : string) (d : option Z) :
  entry_key (make_entry drive_times n) = from_option Finite Infinity d
  ↔ duration_of drive_times n = d.
Proof.
  rewrite make_entry_key.
  destruct (duration_of drive_times n), d; simpl; naive_solver.
Qed.

Lemma make_entry_le (p q : string) :
  entry_le (make_entry drive_times p) (make_entry drive_times q) →
  duration_le (duration_of drive_times p) (duration_of drive_times q).
Proof.
  unfold entry_le. rewrite !make_entry_key.
  destruct (duration_of drive_times p), (duration_of drive_times q); simpl;
    try done. apply key_le_finite.
Qed.

Lemma sorted_names_perm : (sorted_parks parks drive_times).*1.*1 ≡ₚ parks.*1.
Proof. rewrite sorted_parks_perm. by rewrite make_entry_names. Qed.

Lemma sorted_names_ascending (i j : nat) (p q : string) :
  (i < j)%nat →
  (sorted_parks parks drive_times).*1.*1 !! i = Some p →
  (sorted_parks parks drive_times).*1.*1 !! j = Some q →
  duration_le (duration_of drive_times p) (duration_of drive_times q).
Proof.
  intros Hij Hp Hq. apply make_entry_le.
  destruct (sort_by_key_spec (unsorted_parks parks drive_times)) as (Hs & _).
  fold (sorted_parks parks drive_times) in Hs.
  apply (StronglySorted_lookup_lt _ _ i j _ _ Hs Hij).
  - rewrite sorted_parks_entries, list_lookup_fmap. by rewrite Hp.
  - rewrite sorted_parks_entries, list_lookup_fmap. by rewrite Hq.
Qed.

(** C4: the report lists the parks by ascending [duration_seconds], a
    park without a duration after every park that has one, and parks of
    equal duration, or both without one, in the order of the input
    mapping. *)
Theorem sorted_parks_order :
  let names := (sorted_parks parks drive_times).*1.*1 in
  names ≡ₚ parks.*1 ∧
  (∀ (i j : nat) (p q : string),
      (i < j)%nat → names !! i = Some p → names !! j = Some q →
      duration_le (duration_of drive_times p) (duration_of drive_times q)) ∧
  (∀ (i j : nat) (p q : string),
      names !! i = Some p → names !! j = Some q →
      is_Some (duration_of drive_times p) → duration_of drive_times q = None →
      (i < j)%nat) ∧
  (∀ d : option Z,
      filter (λ p, duration_of drive_times p = d) names
        = filter (λ p, duration_of drive_times p = d) parks.*1).
Proof.
  intros names. split; [|split; [|split]].
  - apply sorted_names_perm.
  - apply sorted_names_ascending.
  - intros i j p q Hp Hq [s Hs] Hnone.
    destruct (decide (i < j)%nat) as [|Hge]; [done|exfalso].
    destruct (decide (i = j)) as [->|Hne].
    + rewrite Hp in Hq. by simplify_eq.
    + assert (Hji : (j < i)%nat) by lia.
      pose proof (sorted_names_ascending j i q p Hji Hq Hp) as Hle.
      by rewrite Hs, Hnone in Hle.
  - intros d.
    destruct (sort_by_key_spec (unsorted_parks parks drive_times)) as (_ & _ & Hf).
    fold (sorted_parks parks drive_times) in Hf.
    specialize (Hf (from_option Finite Infinity d)).
    rewrite sorted_parks_entries, unsorted_parks_eq in Hf. fold names in Hf.
    generalize dependent (parks.*1). intros pnames Hf.
    rewrite !filter_fmap in Hf.
    apply (f_equal (λ l, l.*1.*1)) in Hf. rewrite !make_entry_names in Hf.
    rewrite (list_filter_iff _ (λ p, duration_of drive_times p = d)) in Hf
      by (intros n; apply make_entry_key_iff).
    rewrite Hf.
    apply list_filter_iff. intros n. apply make_entry_key_iff.
Qed.

End ReportOrder.

(** ** Report aggregator: grouping and sections *)

Lemma fold_left_concat {A B : Type} (g : A → list B) (l : list A) (acc : list B) :
  fold_left (λ acc x, acc ++ g x) l acc = acc ++ concat (g <$> l).
Proof.
  revert acc. induction l as [|x l IH]; intros acc; simpl.
  - by rewrite app_nil_r.
  - by rewrite IH, <- app_assoc.
Qed.

Lemma filter_ext_in {A : Type} (P Q : A → Prop) `{!∀ x, Decision (P x)}
    `{!∀ x, Decision (Q x)} (l : list A) :
  (∀ x, x ∈ l → P x ↔ Q x) → filter P l = filter Q l.
Proof.
  induction l as [|x l IH]; intros HPQ; [done|].
  rewrite !filter_cons, IH.
  - assert (Hx : P x ↔ Q x) by (apply HPQ, elem_of_cons; by left).
    destruct (decide (P x)), (decide (Q x)); tauto.
  - intros y Hy. apply HPQ, elem_of_cons. by right.
Qed.

Lemma members_insert categories category listed (c : string) :
  members (<[category := listed]> categories) c
    = if decide (category = c) then listed else members categories c.
Proof.
  unfold members. rewrite lookup_insert. by case_decide.
Qed.

Lemma members_initial (c : string) :
  members {[ "Day Trip" := []; "Weekend Trip" := []; "Multi-day Trip" := [];
             "Unknown" := [] ]} c = [].
Proof.
  rewrite !members_insert. unfold members. rewrite lookup_singleton.
  by repeat case_decide.
Qed.

(** The grouping loop files every tuple under its category, in order. *)
Lemma group_loop_members (l : list report_entry) categories (c : string) :
  members (fold_left (λ categories '(park_name, duration, info),
                        let category := categorize_trip (duration_seconds info) in
                        <[category := members categories category
                                        ++ [(park_name, info)]]> categories)
                     l categories) c
    = members categories c
      ++ filter (λ e, categorize_trip (duration_seconds e.2) = c) (entry_pair <$> l).
Proof.
  revert categories. induction l as [|[[n d] info] l IH]; intros categories.
  - simpl. by rewrite app_nil_r.
  - cbn [fold_left]. rewrite IH. cbv zeta. rewrite members_insert.
    rewrite fmap_cons, filter_cons. unfold entry_pair at 2. simpl.
    destruct (decide (categorize_trip (duration_seconds info) = c)) as [->|Hne].
    + by rewrite <- app_assoc.
    + done.
Qed.

Section ReportSections.
Variables (parks : list (string * park_value)) (drive_times : gmap string drive_info).

Let categories := group_by_category (sorted_parks parks drive_times).

Lemma members_listed_in (c : string) :
  members categories c
    = (λ p, (p, get_info drive_times p)) <$> listed_in parks drive_times c.
Proof.
  unfold categories, group_by_category.
  rewrite group_loop_members, members_initial. simpl.
  rewrite sorted_parks_entries at 1.
  unfold listed_in.
  generalize ((sorted_parks parks drive_times).*1.*1). intros names.
  by rewrite !filter_fmap, <- list_fmap_compose.
Qed.

Lemma length_members (c : string) :
  length (members categories c) = category_count parks drive_times c.
Proof.
  rewrite members_listed_in, length_fmap. unfold listed_in, category_count.
  apply Permutation_length, filter_Permutation.
  apply sorted_names_perm.
Qed.

Lemma summary_step_spec (lines : list string) (c : string) :
  summary_step categories lines c = lines ++ summary_line parks drive_times c.
Proof.
  unfold summary_step, summary_line; cbv zeta. rewrite length_members.
  case_decide; [done|]. by rewrite app_nil_r.
Qed.

Lemma summary_section_spec (lines : list string) :
  summary_section categories lines = lines ++ summary_spec parks drive_times.
Proof.
  unfold summary_section, summary_spec, CATEGORIES; cbn [fold_left].
  rewrite !summary_step_spec. by rewrite <- !app_assoc.
Qed.

Lemma detail_loop_spec (names lines : list string) :
  fold_left detail_step ((λ p, (p, get_info drive_times p)) <$> names) lines
    = lines ++ concat (park_lines drive_times <$> names).
Proof.
  revert lines. induction names as [|p names IH]; intros lines.
  - simpl. by rewrite app_nil_r.
  - rewrite !fmap_cons. cbn [fold_left concat]. rewrite IH.
    unfold detail_step, park_lines. by rewrite <- !app_assoc.
Qed.

Lemma listing_step_spec (lines : list string) (c : string) :
  listing_step categories lines c = lines ++ listing_spec parks drive_times c.
Proof.
  unfold listing_step, listing_spec. rewrite members_listed_in.
  destruct (listed_in parks drive_times c) as [|p listed] eqn:E.
  - by rewrite app_nil_r.
  - rewrite (app_assoc lines), (app_assoc (lines ++ _)).
    by rewrite <- detail_loop_spec.
Qed.

Lemma detailed_listings_spec (lines : list string) :
  detailed_listings categories lines = lines ++ listings_spec parks drive_times.
Proof.
  unfold detailed_listings, listings_spec, LISTED; cbn [fold_left].
  rewrite !listing_step_spec. by rewrite <- !app_assoc.
Qed.

End ReportSections.

Section ClusterSection.
Variable drive_times : gmap string drive_info.

Lemma member_loop_spec (c lines : list string) :
  fold_left (member_step drive_times) c lines
    = lines ++ ((λ p, "    - " +:+ p +:+ " (" +:+
                      duration_label (get_info drive_times p) +:+ ")") <$> c).
Proof. apply (fold_left_snoc _ c lines). Qed.

Lemma cluster_loop_spec (selected : list (list string)) (i : nat)
    (lines : list string) :
  fold_left (cluster_step drive_times) selected (i, lines)
    = ((i + length selected)%nat,
       lines ++ concat (imap (λ k c, cluster_lines drive_times (i + k) c) selected)).
Proof.
  revert i lines. induction selected as [|c selected IH]; intros i lines.
  - simpl. by rewrite Nat.add_0_r, app_nil_r.
  - cbn [fold_left cluster_step]. rewrite member_loop_spec, IH.
    rewrite imap_cons. cbn [concat length]. f_equal; [lia|].
    rewrite Nat.add_0_r. unfold cluster_lines at 2.
    rewrite <- !app_assoc. cbn [app]. do 4 f_equal.
    apply imap_ext. intros k c' _. simpl. f_equal. lia.
Qed.

Lemma cluster_section_spec (clusters : list (list string)) (lines : list string) :
  cluster_section drive_times clusters lines
    = lines ++ clusters_spec drive_times (multi_day_clusters drive_times clusters).
Proof.
  unfold cluster_section, clusters_spec.
  destruct (multi_day_clusters drive_times clusters) as [|c selected].
  - by rewrite app_nil_r.
  - rewrite cluster_loop_spec. cbn [snd]. by rewrite <- !app_assoc.
Qed.

End ClusterSection.

(** The report, section by section. *)
Lemma report_lines_spec (parks : list (string * park_value))
    (drive_times : gmap string drive_info) (clusters : list (list string)) :
  report_lines parks drive_times clusters
    = banner_lines parks ++ summary_spec parks drive_times ++
      listings_spec parks drive_times ++
      clusters_spec drive_times (multi_day_clusters drive_times clusters) ++
      footer_lines.
Proof.
  unfold report_lines; cbv zeta.
  rewrite cluster_section_spec, detailed_listings_spec, summary_section_spec.
  by rewrite <- !app_assoc.
Qed.

(** C5: the summary has a count line exactly for the categories with a
    park, taken in the order Day Trip, Weekend Trip, Multi-day Trip,
    Unknown; the detailed sections are those of the non-empty categories
    among Day Trip, Weekend Trip, Multi-day Trip, so that a park of
    category Unknown is in none of them. For X at two hours, Y at six hours
    and Z without a duration the summary counts one Day Trip, one Multi-day
    Trip and one Unknown, and the listings hold X and Y only. *)
Theorem report_summary_and_listings (parks : list (string * park_value))
    (drive_times : gmap string drive_info) :
  let categories := group_by_category (sorted_parks parks drive_times) in
  (∀ lines, summary_section categories lines
            = lines ++ summary_spec parks drive_times) ∧
  (∀ lines, detailed_listings categories lines
            = lines ++ listings_spec parks drive_times) ∧
  (∀ c p info, (p, info) ∈ members categories c →
               category_of drive_times p = c ∧ p ∈ parks.*1) ∧
  (∀ c p, c ∈ LISTED → p ∈ listed_in parks drive_times c →
          category_of drive_times p ≠ "Unknown") ∧
  summary_section (group_by_category (sorted_parks xyz_parks xyz_drive_times)) []
    = [ RULE_DASH; "SUMMARY BY TRIP TYPE"; RULE_DASH;
        "  Day Trip: 1 parks"; "  Multi-day Trip: 1 parks"; "  Unknown: 1 parks";
        "" ] ∧
  detailed_listings (group_by_category (sorted_parks xyz_parks xyz_drive_times)) []
    = [ RULE_DASH; "DAY TRIPS (sorted by drive time)"; RULE_DASH;
        "  X"; "    Drive: 2 hours 0 mins | Distance: 100 mi"; "";
        RULE_DASH; "MULTI-DAY TRIPS (sorted by drive time)"; RULE_DASH;
        "  Y"; "    Drive: 6 hours 0 mins | Distance: 398 mi"; "" ].
Proof.
  intros categories. split; [|split; [|split; [|split; [|split]]]].
  - apply summary_section_spec.
  - apply detailed_listings_spec.
  - intros c p info H. unfold categories in H. rewrite members_listed_in in H.
    apply list_elem_of_fmap in H as (q & [= -> ->] & Hq).
    apply list_elem_of_filter in Hq as [Hc Hq]. split; [done|].
    by rewrite <- (sorted_names_perm parks drive_times).
  - intros c p Hl Hp Hu. apply list_elem_of_filter in Hp as [Hc _].
    rewrite Hu in Hc. subst c. revert Hl. unfold LISTED.
    rewrite !elem_of_cons, elem_of_nil. naive_solver.
  - vm_compute. reflexivity.
  - vm_compute. reflexivity.
Qed.

(** C6: the suggested-clusters section holds exactly the clusters with
    more than one member of which at least one is a Multi-day Trip, in the
    order of the cluster list and numbered from 1, each with all of its
    members and their duration text or [N/A]. *)
Theorem report_suggested_clusters (drive_times : gmap string drive_info)
    (clusters : list (list string)) :
  let selected := multi_day_clusters drive_times clusters in
  (∀ c, c ∈ selected ↔ c ∈ clusters ∧ suggested drive_times c) ∧
  selected `sublist_of` clusters ∧
  (∀ lines, cluster_section drive_times clusters lines
            = lines ++ clusters_spec drive_times selected) ∧
  (∀ k c, selected !! k = Some c →
          imap (λ k c, cluster_lines drive_times (S k) c) selected !! k
          = Some ((LF +:+ "  Cluster " +:+ pretty (S k) +:+ ": (" +:+
                   pretty (length c) +:+ " parks)")
                  :: ((λ p, "    - " +:+ p +:+ " (" +:+
                            default "N/A" (duration_text (get_info drive_times p))
                            +:+ ")") <$> c))).
Proof.
  intros selected. split; [|split; [|split]].
  - intros c. unfold selected, multi_day_clusters, suggested.
    rewrite list_elem_of_filter, Exists_exists. tauto.
  - apply sublist_filter.
  - intros lines. apply cluster_section_spec.
  - intros k c Hk. rewrite list_lookup_imap, Hk. done.
Qed.


(** ** Geocoding and the driver *)

Lemma io_bind_ok {A B : Type} (m : io A) (k : A → io B) (fs fs' : files) (a : A) :
  m fs = (Ok a, fs') → (m ≫= k) fs = k a fs'.
Proof. intros H. unfold mbind, io_bind. by rewrite H. Qed.

Lemma io_bind_raise {A B : Type} (m : io A) (k : A → io B) (fs fs' : files)
    (e : exn) :
  m fs = (Raise e, fs') → (m ≫= k) fs = (Raise e, fs').
Proof. intros H. unfold mbind, io_bind. by rewrite H. Qed.

Lemma load_parks_some (fs : files) (parks : list (string * park_value)) :
  PARKS_FILE fs = Some parks → load_parks fs = (Ok parks, fs).
Proof.
  intros H. unfold load_parks, read_files, mbind, io_bind. by rewrite H.
Qed.

Section PipelineFacts.
Context `{M : Math} `{G : Client}.

Lemma dict_set_geocoded (n : string) (parks : list (string * park_value)) :
  dict_set n (geocode_park n) parks = geocoded [n] <$> parks.
Proof.
  unfold dict_set. apply list_fmap_ext. intros _ [m old] _. unfold geocoded; simpl.
  destruct (decide (m = n)) as [->|Hne].
  - rewrite decide_True; [done|]. apply elem_of_cons. by left.
  - rewrite decide_False; [done|]. rewrite elem_of_cons, elem_of_nil. tauto.
Qed.

Lemma geocode_loop_spec (items cur : list (string * park_value)) (updated : bool) :
  (fold_left geocode_step items (cur, updated)).1
    = geocoded (pending_names items) <$> cur.
Proof.
  revert cur updated. induction items as [|[n v] items IH]; intros cur updated.
  - simpl. rewrite <- (list_fmap_id cur) at 1. apply list_fmap_ext.
    intros _ [m old] _. unfold geocoded. rewrite decide_False; [done|].
    unfold pending_names. simpl. apply not_elem_of_nil.
  - cbn [fold_left geocode_step]. unfold pending_names.
    destruct (needs_geocoding v) eqn:E.
    + rewrite IH, dict_set_geocoded, <- list_fmap_compose.
      rewrite filter_cons_True by done. rewrite fmap_cons.
      apply list_fmap_ext. intros _ [m old] _. unfold geocoded, compose; simpl.
      fold (pending_names items).
      destruct (decide (m = n)) as [->|Hne].
      * rewrite (decide_True (P := n ∈ [n])) by (apply elem_of_cons; by left).
        rewrite (decide_True (P := n ∈ n :: _)) by (apply elem_of_cons; by left).
        simpl. by destruct (decide (n ∈ pending_names items)).
      * rewrite (decide_False (P := m ∈ [n]))
          by (rewrite elem_of_cons, elem_of_nil; tauto).
        cbn [fst snd].
        destruct (decide (m ∈ pending_names items)) as [Hin|Hout].
        -- rewrite decide_True; [done|]. apply elem_of_cons. by right.
        -- rewrite decide_False; [done|]. rewrite elem_of_cons. tauto.
    + rewrite IH. rewrite filter_cons_False; [done|]. simpl. by rewrite E.
Qed.

(** [geocode_parks] returns, never raises, touches no file but
    [PARKS_FILE], keeps the keys, and stores what the lookup gave for
    every park marked ["Y"]. *)
Lemma geocode_parks_spec (parks : list (string * park_value)) (fs : files) :
  ∃ fs',
    geocode_parks parks fs = (Ok (geocoded (pending_names parks) <$> parks), fs') ∧
    DRIVE_TIMES_FILE fs' = DRIVE_TIMES_FILE fs ∧
    MAP_FILE fs' = MAP_FILE fs ∧ REPORT_FILE fs' = REPORT_FILE fs.
Proof.
  unfold geocode_parks.
  pose proof (geocode_loop_spec parks parks false) as Hloop.
  destruct (fold_left geocode_step parks (parks, false)) as [parks' updated].
  simpl in Hloop. subst parks'. destruct updated; eexists; split; done.
Qed.

Lemma geocoded_names (pending : list string) (parks : list (string * park_value)) :
  (geocoded pending <$> parks).*1 = parks.*1.
Proof.
  rewrite <- list_fmap_compose. apply list_fmap_ext. intros _ [n v] _.
  unfold geocoded, compose; simpl. by destruct (decide (n ∈ pending)).
Qed.

Lemma geocoded_pending (parks : list (string * park_value)) (name : string) :
  (name, Pending "Y") ∈ parks →
  (name, geocode_park name) ∈ geocoded (pending_names parks) <$> parks.
Proof.
  intros Hin. apply list_elem_of_fmap. exists (name, Pending "Y"). split; [|done].
  unfold geocoded; simpl. rewrite decide_True; [done|].
  unfold pending_names. apply list_elem_of_fmap. exists (name, Pending "Y").
  split; [done|]. by apply list_elem_of_filter.
Qed.

Lemma geocode_home_spec (fs : files) :
  geocode_home fs =
    match geocode MY_ADDRESS with
    | Throws e => (Raise (ProviderError e), fs)
    | Returns [] =>
        (Raise (ValueError ("Could not geocode home address: " +:+ MY_ADDRESS)), fs)
    | Returns (location :: _) => (Ok (location.1, location.2), fs)
    end.
Proof. unfold geocode_home. by destruct (geocode MY_ADDRESS) as [[|loc rest]|e]. Qed.

(** C8: when the geocoder returns for the home address, [geocode_home]
    raises exactly when the result is empty, and [main] then ends with that
    exception and writes neither the map nor the report nor the drive-time
    cache; while [geocode_parks] always returns, recording for every park
    marked ["Y"] the coordinate found or the marker of the failure, and the
    run goes on to its outputs (as the run with the demo client shows). *)
Theorem home_geocoding_is_fatal (GOOGLE_MAPS_API_KEY : option string) (fs : files)
    (parks : list (string * park_value)) (result : list (float * float)) :
  geocode MY_ADDRESS = Returns result →
  default "" GOOGLE_MAPS_API_KEY ≠ "" →
  PARKS_FILE fs = Some parks →
  (raises (geocode_home fs).1 ↔ result = []) ∧
  (result = [] →
     (main GOOGLE_MAPS_API_KEY fs).1
       = Raise (ValueError ("Could not geocode home address: " +:+ MY_ADDRESS)) ∧
     MAP_FILE (main GOOGLE_MAPS_API_KEY fs).2 = MAP_FILE fs ∧
     REPORT_FILE (main GOOGLE_MAPS_API_KEY fs).2 = REPORT_FILE fs ∧
     DRIVE_TIMES_FILE (main GOOGLE_MAPS_API_KEY fs).2 = DRIVE_TIMES_FILE fs) ∧
  (∃ parks' fs',
     geocode_parks parks fs = (Ok parks', fs') ∧
     parks'.*1 = parks.*1 ∧
     ∀ name, (name, Pending "Y") ∈ parks →
       (geocode (name +:+ ", California") = Returns [] →
          (name, NotLocated "Not found") ∈ parks') ∧
       (∀ e, geocode (name +:+ ", California") = Throws e →
          (name, NotLocated e) ∈ parks') ∧
       (∀ location rest,
          geocode (name +:+ ", California") = Returns (location :: rest) →
          (name, Located location.1 location.2) ∈ parks')) ∧
  (let run := @main meridian_math demo_client (Some "key") demo_files in
   run.1 = Ok () ∧
   PARKS_FILE run.2
     = Some [ ("Big Basin Redwoods SP", Located 37.25 (-122.25));
              ("Atlantis SP", NotLocated "Not found");
              ("El Dorado SP", NotLocated "timed out") ] ∧
   is_Some (MAP_FILE run.2) ∧ is_Some (REPORT_FILE run.2)).
Proof.
  intros Hhome Hkey Hparks. split; [|split; [|split]].
  - rewrite geocode_home_spec, Hhome. destruct result; simpl; [tauto|].
    split; [tauto|discriminate].
  - intros ->.
    destruct (geocode_parks_spec parks fs) as (fs' & Hrun & Hd & Hm & Hr).
    assert (Hmain : main GOOGLE_MAPS_API_KEY fs
                    = (Raise (ValueError ("Could not geocode home address: "
                                          +:+ MY_ADDRESS)), fs')).
    { unfold main.
      rewrite bool_decide_eq_false_2 by done.
      rewrite bool_decide_eq_false_2 by discriminate.
      rewrite (io_bind_ok _ _ _ _ _ (load_parks_some fs parks Hparks)).
      rewrite (io_bind_ok _ _ _ _ _ Hrun).
      apply io_bind_raise. by rewrite geocode_home_spec, Hhome. }
    rewrite Hmain. simpl. by rewrite Hd, Hm, Hr.
  - destruct (geocode_parks_spec parks fs) as (fs' & Hrun & _).
    eexists _, fs'. split; [exact Hrun|]. split; [apply geocoded_names|].
    intros name Hin. pose proof (geocoded_pending parks name Hin) as Hnew.
    unfold geocode_park in Hnew. cbv zeta in Hnew.
    repeat split.
    + intros Hq. by rewrite Hq in Hnew.
    + intros e Hq. by rewrite Hq in Hnew.
    + intros location rest Hq. by rewrite Hq in Hnew.
  - vm_compute. repeat split; eauto.
Qed.

End PipelineFacts.

Lemma home_geocoding_is_fatal_witness :
  (@main meridian_math lost_client (Some "key") demo_files).1
    = Raise (ValueError ("Could not geocode home address: " +:+ MY_ADDRESS)) ∧
  MAP_FILE (@main meridian_math lost_client (Some "key") demo_files).2 = None ∧
  REPORT_FILE (@main meridian_math lost_client (Some "key") demo_files).2 = None.
Proof.
  destruct (@home_geocoding_is_fatal meridian_math lost_client (Some "key")
              demo_files
              [ ("Big Basin Redwoods SP", Pending "Y"); ("Atlantis SP", Pending "Y");
                ("El Dorado SP", Pending "Y") ] [])
    as (_ & Habort & _); [reflexivity|discriminate|reflexivity|].
  destruct (Habort eq_refl) as (Hout & Hmap & Hrep & _).
  repeat split; assumption.
Defined.


(** ** Drive times of parks without a coordinate *)

Section DriveTimeFacts.
Context `{M : Math} `{G : Client}.

(** The loop of [get_drive_times] leaves the entry of a park alone when
    the park has no resolved coordinate. *)
Lemma drive_time_loop_unresolved (home_coords : float * float)
    (items : list (string * park_value)) (drive_times : gmap string drive_info)
    (updated : bool) (name : string) :
  (∀ coords, (name, coords) ∈ items → resolved_coords coords = None) →
  (fold_left (drive_time_step home_coords) items (drive_times, updated)).1 !! name
    = drive_times !! name.
Proof.
  revert drive_times updated.
  induction items as [|[n v] items IH]; intros drive_times updated Hun; [done|].
  cbn [fold_left drive_time_step].
  assert (Hrest : ∀ coords, (name, coords) ∈ items → resolved_coords coords = None).
  { intros coords Hin. apply Hun, elem_of_cons. by right. }
  destruct (decide (n ∈ dom drive_times)); [by apply IH|].
  destruct (resolved_coords v) as [c|] eqn:E; [|by apply IH].
  rewrite IH by done. apply lookup_insert_ne. intros ->.
  specialize (Hun v). rewrite E in Hun. discriminate Hun.
  apply elem_of_cons. by left.
Qed.

(** [get_drive_times] returns the cache extended by the loop and writes no
    output file. *)
Lemma get_drive_times_spec (home_coords : float * float)
    (parks : list (string * park_value)) (fs : files) :
  ∃ fs',
    get_drive_times home_coords parks fs
      = (Ok (fold_left (drive_time_step home_coords) parks
                       (default ∅ (DRIVE_TIMES_FILE fs), false)).1, fs') ∧
    MAP_FILE fs' = MAP_FILE fs ∧ REPORT_FILE fs' = REPORT_FILE fs.
Proof.
  unfold get_drive_times, load_drive_times, read_files, mbind, io_bind, mret, io_ret.
  destruct (fold_left _ parks _) as [drive_times updated]. simpl.
  destruct updated; eexists; split; done.
Qed.

(** C7, as the code has it: a park without a resolved coordinate is in no
    cluster, and [get_drive_times] leaves its cache entry as it found it;
    so the report files the park under Unknown whenever the cache read at
    the start holds no duration for it. *)
Theorem unresolved_park_invariant (parks : list (string * park_value))
    (home_coords : float * float) (fs : files) (threshold_miles : float)
    (name : string) (coords : park_value) :
  NoDup parks.*1 → (name, coords) ∈ parks → resolved_coords coords = None →
  (∀ c, c ∈ cluster_parks parks threshold_miles → name ∉ c) ∧
  ∃ drive_times fs',
    get_drive_times home_coords parks fs = (Ok drive_times, fs') ∧
    drive_times !! name = default ∅ (DRIVE_TIMES_FILE fs) !! name ∧
    (duration_of (default ∅ (DRIVE_TIMES_FILE fs)) name = None →
     ∀ c info,
       (name, info) ∈ members (group_by_category (sorted_parks parks drive_times)) c →
       c = "Unknown").
Proof.
  intros Hdict Hin Hnone. split.
  - by apply (unresolved_not_clustered parks _ name coords).
  - destruct (get_drive_times_spec home_coords parks fs) as (fs' & Hrun & _).
    eexists _, fs'. split; [exact Hrun|].
    assert (Hkeep : (fold_left (drive_time_step home_coords) parks
                       (default ∅ (DRIVE_TIMES_FILE fs), false)).1 !! name
                    = default ∅ (DRIVE_TIMES_FILE fs) !! name).
    { apply drive_time_loop_unresolved. intros coords' Hin'.
      by rewrite <- (dict_functional parks name coords coords' Hdict Hin Hin'). }
    split; [exact Hkeep|]. intros Hdur c info Hc.
    rewrite members_listed_in in Hc.
    apply list_elem_of_fmap in Hc as (q & [= <- _] & Hq).
    apply list_elem_of_filter in Hq as [<- _].
    unfold category_of, get_info. rewrite Hkeep.
    unfold duration_of, get_info in Hdur. by rewrite Hdur.
Qed.

End DriveTimeFacts.

Lemma unresolved_park_invariant_witness :
  (∀ c, c ∈ @cluster_parks meridian_math meridian_parks 30 → "Z" ∉ c) ∧
  ∃ drive_times fs',
    @get_drive_times lost_client (37%float, (-122)%float) meridian_parks demo_files
      = (Ok drive_times, fs') ∧
    drive_times !! "Z" = None.
Proof.
  destruct (@unresolved_park_invariant meridian_math lost_client meridian_parks
              (37%float, (-122)%float) demo_files 30 "Z" (NotLocated "Not found"))
    as (Hout & drive_times & fs' & Hrun & Hkeep & _).
  - apply (bool_decide_unpack _). vm_compute. exact I.
  - apply list_elem_of_In. simpl. tauto.
  - reflexivity.
  - split; [exact Hout|]. exists drive_times, fs'. split; [exact Hrun|].
    rewrite Hkeep. reflexivity.
Defined.

(** The park of [stale_parks] has no coordinate, [get_drive_times] hands
    its cached drive time on unchanged, and the report lists it as a Day
    Trip. *)
Lemma stale_drive_time_listed :
  resolved_coords (NotLocated "Not found") = None ∧
  @get_drive_times lost_client (37%float, (-122)%float) stale_parks stale_files
    = (Ok stale_cache, stale_files) ∧
  members (group_by_category (sorted_parks stale_parks stale_cache)) "Day Trip"
    = [ ("Sinkyone Wilderness SP",
         route_info 7200 "2 hours 0 mins" 160934 "100 mi") ] ∧
  members (group_by_category (sorted_parks stale_parks stale_cache)) "Unknown" = [] ∧
  "  Sinkyone Wilderness SP"
    ∈ report_lines stale_parks stale_cache
        (@cluster_parks meridian_math stale_parks CLUSTER_THRESHOLD_MILES).
Proof.
  split; [reflexivity|]. split; [vm_compute; reflexivity|].
  split; [vm_compute; reflexivity|]. split; [vm_compute; reflexivity|].
  apply list_elem_of_In. vm_compute. tauto.
Qed.

(** ** The report and the keys of the two mappings *)

Section SortByKeyMap.
Variable f : report_entry → report_entry.
Hypothesis f_keeps : ∀ e, (f e).1 = e.1.

Lemma insort_fmap (x : report_entry) (l : list report_entry) :
  insort (f x) (f <$> l) = f <$> insort x l.
Proof.
  induction l as [|y l IH]; [done|].
  rewrite fmap_cons. cbn [insort]. unfold entry_key. rewrite !f_keeps.
  destruct (key_lt x.1.2 y.1.2); [done|]. by rewrite IH.
Qed.

Lemma sort_loop_fmap (l acc : list report_entry) :
  fold_left (λ acc x, insort x acc) (f <$> l) (f <$> acc)
    = f <$> fold_left (λ acc x, insort x acc) l acc.
Proof.
  revert acc. induction l as [|x l IH]; intros acc; [done|].
  rewrite fmap_cons. cbn [fold_left]. by rewrite insort_fmap, IH.
Qed.

Lemma sort_by_key_fmap (l : list report_entry) :
  sort_by_key (f <$> l) = f <$> sort_by_key l.
Proof. apply (sort_loop_fmap l []). Qed.

End SortByKeyMap.

Section ReportExt.
Variables (parks : list (string * park_value)) (clusters : list (list string)).
Variables (dt1 dt2 : gmap string drive_info).
Hypothesis agree : ∀ n, n ∈ parks.*1 ∨ n ∈ concat clusters → same_report_fields dt1 dt2 n.

Lemma category_of_agree (n : string) :
  n ∈ parks.*1 ∨ n ∈ concat clusters → category_of dt1 n = category_of dt2 n.
Proof.
  intros Hn. destruct (agree n Hn) as (Hd & _).
  unfold category_of. unfold duration_of in Hd. by rewrite Hd.
Qed.

Lemma sorted_names_agree :
  (sorted_parks parks dt1).*1.*1 = (sorted_parks parks dt2).*1.*1.
Proof.
  unfold sorted_parks. rewrite !unsorted_parks_eq.
  assert (Hmem : ∀ n, n ∈ parks.*1 → duration_of dt1 n = duration_of dt2 n).
  { intros n Hn. by destruct (agree n (or_introl Hn)) as (Hd & _). }
  revert Hmem. generalize (parks.*1). intros ns Hmem.
  set (f := λ e : report_entry, (e.1.1, e.1.2, get_info dt2 e.1.1)).
  assert (Hf : make_entry dt2 <$> ns = f <$> (make_entry dt1 <$> ns)).
  { rewrite <- list_fmap_compose. apply Forall_fmap_ext, Forall_forall.
    intros n Hn. apply Hmem in Hn.
    unfold f, compose, make_entry; simpl. unfold duration_of in Hn. by rewrite Hn. }
  rewrite Hf, (sort_by_key_fmap f) by (by intros [[? ?] ?]).
  by rewrite <- !list_fmap_compose.
Qed.

Lemma summary_spec_agree : summary_spec parks dt1 = summary_spec parks dt2.
Proof.
  assert (Hc : ∀ c, category_count parks dt1 c = category_count parks dt2 c).
  { intros c. unfold category_count. f_equal. apply filter_ext_in.
    intros n Hn. by rewrite category_of_agree by (by left). }
  unfold summary_spec, summary_line. by rewrite !Hc.
Qed.

Lemma listed_in_agree (c : string) : listed_in parks dt1 c = listed_in parks dt2 c.
Proof.
  unfold listed_in. rewrite sorted_names_agree. apply filter_ext_in.
  intros n Hn. rewrite (sorted_names_perm parks dt2) in Hn.
  by rewrite category_of_agree by (by left).
Qed.

Lemma listing_spec_agree (c : string) : listing_spec parks dt1 c = listing_spec parks dt2 c.
Proof.
  unfold listing_spec. rewrite listed_in_agree.
  assert (Hl : park_lines dt1 <$> listed_in parks dt2 c
               = park_lines dt2 <$> listed_in parks dt2 c).
  { apply Forall_fmap_ext, Forall_forall. intros n Hn.
    apply list_elem_of_filter in Hn as [_ Hn].
    rewrite (sorted_names_perm parks dt2) in Hn.
    destruct (agree n (or_introl Hn)) as (_ & Hdur & Hdist).
    unfold park_lines. by rewrite Hdur, Hdist. }
  destruct (listed_in parks dt2 c); [done|]. by rewrite Hl.
Qed.

Lemma multi_day_clusters_agree :
  multi_day_clusters dt1 clusters = multi_day_clusters dt2 clusters.
Proof.
  unfold multi_day_clusters. apply filter_ext_in. intros c Hc.
  rewrite !Exists_exists.
  assert (Hp : ∀ p, p ∈ c → category_of dt1 p = category_of dt2 p).
  { intros p Hp. apply category_of_agree. right. apply elem_of_concat. eauto. }
  split; intros [Hlen (p & Hin & Hcat)]; (split; [done|]); exists p;
    (split; [done|]); [by rewrite <- Hp|by rewrite Hp].
Qed.

Lemma clusters_spec_agree :
  clusters_spec dt1 (multi_day_clusters dt1 clusters)
    = clusters_spec dt2 (multi_day_clusters dt2 clusters).
Proof.
  rewrite multi_day_clusters_agree. unfold clusters_spec.
  assert (Hl : imap (λ k c, cluster_lines dt1 (S k) c) (multi_day_clusters dt2 clusters)
               = imap (λ k c, cluster_lines dt2 (S k) c) (multi_day_clusters dt2 clusters)).
  { apply imap_ext. intros k c Hk. unfold cluster_lines. f_equal.
    apply Forall_fmap_ext, Forall_forall. intros p Hp.
    apply list_elem_of_lookup_2, list_elem_of_filter in Hk as [_ Hc].
    destruct (agree p) as (_ & Hdur & _).
    { right. apply elem_of_concat. eauto. }
    by rewrite Hdur. }
  destruct (multi_day_clusters dt2 clusters); [done|]. by rewrite Hl.
Qed.

(** The report depends on the drive-time cache only through what it holds
    about the keys of [parks] and the members of the clusters. *)
Lemma report_lines_agree :
  report_lines parks dt1 clusters = report_lines parks dt2 clusters.
Proof.
  rewrite !report_lines_spec. unfold listings_spec.
  by rewrite summary_spec_agree, !listing_spec_agree, clusters_spec_agree.
Qed.

End ReportExt.

Lemma same_report_fields_insert_ne (drive_times : gmap string drive_info)
    (k n : string) (info : drive_info) :
  k ≠ n → same_report_fields (<[k := info]> drive_times) drive_times n.
Proof.
  intros Hne. unfold same_report_fields, duration_of, get_info.
  by rewrite lookup_insert_ne.
Qed.

Lemma same_report_fields_absent (drive_times : gmap string drive_info)
    (k n : string) (info : drive_info) :
  drive_times !! k = None →
  duration_seconds info = None → duration_text info = None →
  distance_text info = None →
  same_report_fields (<[k := info]> drive_times) drive_times n.
Proof.
  intros Hk Hd Ht Hm. destruct (decide (k = n)) as [<-|Hne].
  - unfold same_report_fields, duration_of, get_info, duration_label, distance_label.
    rewrite lookup_insert_eq, Hk. simpl. by rewrite Hd, Ht, Hm.
  - by apply same_report_fields_insert_ne.
Qed.

Lemma clustered_is_park `{M : Math} (parks : list (string * park_value))
    (threshold_miles : float) (n : string) :
  n ∈ concat (cluster_parks parks threshold_miles) → n ∈ parks.*1.
Proof.
  intros Hn. apply cluster_parks_partition, elem_of_valid_parks in Hn
    as (coords & Hin & _).
  apply list_elem_of_fmap. by exists (n, coords).
Qed.

(** C10: a park of the parks mapping without an entry in the drive-time
    mapping has no duration, is of category Unknown, shows [N/A] for both
    texts and comes after every park with a duration, and the report is
    the one obtained with an entry that lacks duration and texts; a key of
    the drive-time mapping that is no key of the parks mapping (nor a
    cluster member, which the clusters of [cluster_parks] never are)
    changes nothing in the report, whose total is the size of the parks
    mapping and whose categories hold keys of the parks mapping only. *)
Theorem report_follows_parks_keys `{M : Math} (parks : list (string * park_value))
    (drive_times : gmap string drive_info) (clusters : list (list string)) :
  (∀ name, drive_times !! name = None →
     duration_of drive_times name = None ∧
     category_of drive_times name = "Unknown" ∧
     duration_label (get_info drive_times name) = "N/A" ∧
     distance_label (get_info drive_times name) = "N/A" ∧
     (∀ i j q,
        (sorted_parks parks drive_times).*1.*1 !! i = Some q →
        (sorted_parks parks drive_times).*1.*1 !! j = Some name →
        is_Some (duration_of drive_times q) → (i < j)%nat) ∧
     (∀ info,
        duration_seconds info = None → duration_text info = None →
        distance_text info = None →
        generate_report parks (<[name := info]> drive_times) clusters
          = generate_report parks drive_times clusters)) ∧
  (∀ k info, k ∉ parks.*1 →
     (k ∉ concat clusters →
      generate_report parks (<[k := info]> drive_times) clusters
        = generate_report parks drive_times clusters) ∧
     (∀ threshold_miles,
        generate_report parks (<[k := info]> drive_times)
                        (cluster_parks parks threshold_miles)
          = generate_report parks drive_times (cluster_parks parks threshold_miles))) ∧
  report_lines parks drive_times clusters !! 4%nat
    = Some ("Total parks: " +:+ pretty (length parks)) ∧
  (∀ c p info,
     (p, info) ∈ members (group_by_category (sorted_parks parks drive_times)) c →
     p ∈ parks.*1).
Proof.
  split; [|split; [|split]].
  - intros name Hnone.
    assert (Hd : duration_of drive_times name = None).
    { unfold duration_of, get_info. by rewrite Hnone. }
    split; [done|]. split; [unfold category_of, get_info; by rewrite Hnone|].
    split; [unfold get_info; by rewrite Hnone|].
    split; [unfold get_info; by rewrite Hnone|]. split.
    + intros i j q Hq Hn [s Hs].
      destruct (decide (i < j)%nat) as [|Hge]; [done|exfalso].
      destruct (decide (i = j)) as [->|Hne].
      * rewrite Hq in Hn. by simplify_eq.
      * assert (Hji : (j < i)%nat) by lia.
        pose proof (sorted_names_ascending parks drive_times j i name q Hji Hn Hq)
          as Hle.
        by rewrite Hs, Hd in Hle.
    + intros info Hi1 Hi2 Hi3. unfold generate_report. f_equal.
      apply report_lines_agree. intros n _.
      by apply same_report_fields_absent.
  - intros k info Hk. split.
    + intros Hc. unfold generate_report. f_equal.
      apply report_lines_agree. intros n Hn.
      apply same_report_fields_insert_ne. intros ->. tauto.
    + intros threshold_miles. unfold generate_report. f_equal.
      apply report_lines_agree. intros n Hn.
      apply same_report_fields_insert_ne. intros ->.
      destruct Hn as [Hn|Hn]; [done|]. by apply clustered_is_park in Hn.
  - by rewrite report_lines_spec.
  - intros c p info Hp. rewrite members_listed_in in Hp.
    apply list_elem_of_fmap in Hp as (q & [= -> _] & Hq).
    apply list_elem_of_filter in Hq as [_ Hq].
    by rewrite <- (sorted_names_perm parks drive_times).
Qed.

(** ** Park types *)

Lemma substring_contains (suffix s : string) (n : nat) :
  String.substring n (String.length suffix) s = suffix →
  contains suffix s = true.
Proof.
  revert s. induction n as [|n IH]; intros s Hsub.
  - apply String.prefix_correct in Hsub. destruct s; cbn [contains]; by rewrite Hsub.
  - destruct s as [|c s].
    + simpl in Hsub. destruct suffix; [done|discriminate].
    + simpl in Hsub. apply IH in Hsub. cbn [contains]. rewrite Hsub.
      by destruct (String.prefix suffix (String c s)).
Qed.

Lemma ends_with_contains (suffix s : string) :
  ends_with suffix s = true → contains suffix s = true.
Proof.
  unfold ends_with. intros [_ Heq%String.eqb_eq]%andb_prop.
  by apply substring_contains in Heq.
Qed.

(** C9, on the code: [get_park_type] looks for the designation anywhere
    in the name. A name that ends in SHP is historical, as the suffix rule
    says; but a name that merely contains SB is a beach although it ends
    in no designation, and a name that ends in SB is historical once SHP
    occurs earlier in it. *)
Theorem get_park_type_by_occurrence :
  (∀ park_name, ends_with "SHP" park_name = true →
                get_park_type park_name = "historical") ∧
  get_park_type "Asilomar SB Conference Grounds" = "beach" ∧
  park_type_by_suffix "Asilomar SB Conference Grounds" = "park" ∧
  get_park_type "Fort Ross SHP Cove SB" = "historical" ∧
  park_type_by_suffix "Fort Ross SHP Cove SB" = "beach".
Proof.
  split; [|by vm_compute].
  intros park_name Hend. unfold get_park_type.
  by rewrite (ends_with_contains _ _ Hend).
Qed.

(** ** The theorems at concrete inputs *)

Lemma categorize_trip_policy_witness :
  categorize_trip (Some 7200%Z) = "Day Trip" ∧
  categorize_trip (Some 12000%Z) = "Weekend Trip" ∧
  categorize_trip (Some 21600%Z) = "Multi-day Trip".
Proof.
  destruct categorize_trip_policy as (_ & Hday & Hweek & Hmulti & _).
  split; [apply Hday; lia|]. split; [apply Hweek; lia|apply Hmulti; lia].
Defined.

Lemma sorted_parks_order_witness :
  duration_le (duration_of xyz_drive_times "X") (duration_of xyz_drive_times "Y") ∧
  (1 < 2)%nat.
Proof.
  destruct (sorted_parks_order xyz_parks xyz_drive_times) as (_ & Hasc & Hlast & _).
  split.
  - apply (Hasc 0%nat 1%nat "X" "Y"); [lia|by vm_compute|by vm_compute].
  - apply (Hlast 1%nat 2%nat "Y" "Z");
      [by vm_compute|by vm_compute|by eexists; vm_compute|by vm_compute].
Defined.

Lemma report_summary_and_listings_witness :
  category_of xyz_drive_times "X" ≠ "Unknown".
Proof.
  destruct (report_summary_and_listings xyz_parks xyz_drive_times)
    as (_ & _ & _ & Hlisted & _).
  apply (Hlisted "Day Trip" "X").
  - apply list_elem_of_In. simpl. tauto.
  - apply list_elem_of_In. vm_compute. tauto.
Defined.

Lemma report_suggested_clusters_witness :
  ["X"; "Y"] ∈ multi_day_clusters xyz_drive_times [["X"; "Y"]; ["Z"]].
Proof.
  destruct (report_suggested_clusters xyz_drive_times [["X"; "Y"]; ["Z"]])
    as (Hiff & _).
  apply Hiff. split; [apply list_elem_of_In; simpl; tauto|].
  split; [simpl; lia|]. exists "Y". split; [|by vm_compute].
  apply list_elem_of_In. simpl. tauto.
Defined.

Lemma get_park_type_by_occurrence_witness :
  get_park_type "Fort Ross SHP" = "historical".
Proof. apply (proj1 get_park_type_by_occurrence). reflexivity. Defined.

Lemma report_follows_parks_keys_witness :
  category_of xyz_drive_times "Z" = "Unknown" ∧
  generate_report xyz_parks (<["Z" := error_info "Route not found"]> xyz_drive_times)
                  [["X"; "Y"]; ["Z"]]
    = generate_report xyz_parks xyz_drive_times [["X"; "Y"]; ["Z"]].
Proof.
  destruct (@report_follows_parks_keys meridian_math xyz_parks xyz_drive_times
              [["X"; "Y"]; ["Z"]]) as (Habsent & _).
  destruct (Habsent "Z") as (_ & Hcat & _ & _ & _ & Hreport); [reflexivity|].
  split; [exact Hcat|]. apply Hreport; reflexivity.
Defined.

(** * Further properties of the code *)

(** ** Marker colours and icons *)

Lemma get_marker_color_cases (d : Z) :
  get_marker_color (Some d) =
    if decide (d < 7200)%Z then "green"
    else if decide (d < 14400)%Z then "orange"
    else "red".
Proof.
  unfold get_marker_color; cbv zeta.
  destruct (Qlt_le_dec (hours_of d) 2) as [H2|H2].
  - apply (hours_lt d 2) in H2. rewrite decide_True; [done|lia].
  - apply Qle_not_lt in H2. rewrite (hours_lt d 2) in H2.
    rewrite decide_False; [|lia].
    destruct (Qlt_le_dec (hours_of d) 4) as [H4|H4].
    + apply (hours_lt d 4) in H4. rewrite decide_True; [done|lia].
    + apply Qle_not_lt in H4. rewrite (hours_lt d 4) in H4.
      rewrite decide_False; [done|lia].
Qed.

(** X1: [get_marker_color] is gray without a duration, green below two
    hours (7200 s), orange from two hours up to but not including four
    (14400 s), and red from four hours on. *)
Theorem get_marker_color_thresholds :
  get_marker_color None = "gray" ∧
  (∀ d : Z, (d < 7200)%Z → get_marker_color (Some d) = "green") ∧
  (∀ d : Z, (7200 ≤ d < 14400)%Z → get_marker_color (Some d) = "orange") ∧
  (∀ d : Z, (14400 ≤ d)%Z → get_marker_color (Some d) = "red").
Proof.
  split; [reflexivity|].
  repeat split; intros d Hd; rewrite get_marker_color_cases;
    repeat case_decide; (done || lia).
Qed.

Lemma get_marker_color_thresholds_witness :
  get_marker_color (Some 7199%Z) = "green" ∧
  get_marker_color (Some 7200%Z) = "orange" ∧
  get_marker_color (Some 14400%Z) = "red".
Proof.
  destruct get_marker_color_thresholds as (_ & Hgreen & Horange & Hred).
  split; [apply Hgreen; lia|]. split; [apply Horange; lia|apply Hred; lia].
Defined.

(** X2: the colour of a marker and the category of the report go
    together: a gray marker is exactly an Unknown trip, a green marker is
    always a Day Trip, a Multi-day Trip is always red, and a Weekend Trip
    is orange or red, never green. *)
Theorem marker_color_and_category (duration_seconds : option Z) :
  (get_marker_color duration_seconds = "gray"
   ↔ categorize_trip duration_seconds = "Unknown") ∧
  (get_marker_color duration_seconds = "green" →
   categorize_trip duration_seconds = "Day Trip") ∧
  (categorize_trip duration_seconds = "Multi-day Trip" →
   get_marker_color duration_seconds = "red") ∧
  (categorize_trip duration_seconds = "Weekend Trip" →
   get_marker_color duration_seconds = "orange" ∨
   get_marker_color duration_seconds = "red").
Proof.
  destruct duration_seconds as [d|]; [|by repeat split; try tauto].
  rewrite get_marker_color_cases, categorize_trip_cases.
  repeat case_decide; repeat split; intros; try done; try lia; auto.
Qed.

Lemma marker_color_and_category_witness :
  categorize_trip (Some 3600%Z) = "Day Trip" ∧
  get_marker_color (Some 21600%Z) = "red".
Proof.
  split.
  - by apply (proj1 (proj2 (marker_color_and_category (Some 3600%Z)))).
  - by apply (proj1 (proj2 (proj2 (marker_color_and_category (Some 21600%Z))))).
Defined.

Lemma get_park_type_values (park_name : string) :
  get_park_type park_name ∈ ["historical"; "beach"; "recreation"; "reserve"; "park"].
Proof.
  unfold get_park_type.
  destruct (contains "SHP" park_name), (contains "SB" park_name),
    (contains "SRA" park_name), (contains "SNR" park_name);
    apply list_elem_of_In; simpl; tauto.
Qed.

(** X3: the icon table covers every type [get_park_type] can answer, so
    the fallback of [icons.get] is not what gives a typed park its icon:
    the icon is the tree exactly for the generic type; for a string that is
    no park type at all, [get_marker_icon] falls back to the tree. *)
Theorem marker_icon_of_park_type :
  (∀ park_name,
     get_marker_icon (get_park_type park_name)
       ∈ ["landmark"; "umbrella-beach"; "campground"; "leaf"; "tree"] ∧
     (get_marker_icon (get_park_type park_name) = "tree"
      ↔ get_park_type park_name = "park")) ∧
  (∀ park_type,
     park_type ∉ ["historical"; "beach"; "recreation"; "reserve"; "park"] →
     get_marker_icon park_type = "tree").
Proof.
  split.
  - intros park_name. pose proof (get_park_type_values park_name) as Ht.
    repeat (apply elem_of_cons in Ht as [->|Ht]); try by apply elem_of_nil in Ht.
    all: split; [apply list_elem_of_In; vm_compute; tauto|by vm_compute].
  - intros park_type Hout. unfold get_marker_icon; cbv zeta.
    rewrite !elem_of_cons, elem_of_nil in Hout.
    rewrite !lookup_insert, lookup_singleton.
    repeat case_decide; try done; subst; tauto.
Qed.

Lemma marker_icon_of_park_type_witness : get_marker_icon "museum" = "tree".
Proof.
  apply (proj2 marker_icon_of_park_type).
  rewrite !elem_of_cons, elem_of_nil.
  intros [H|[H|[H|[H|[H|H]]]]]; (discriminate H || exact H).
Defined.

(** ** The categories of the report *)

Lemma categorize_trip_values (duration_seconds : option Z) :
  categorize_trip duration_seconds ∈ CATEGORIES.
Proof.
  destruct duration_seconds as [d|]; [rewrite categorize_trip_cases|];
    repeat case_decide; apply list_elem_of_In; simpl; tauto.
Qed.

Lemma category_counts_sum (drive_times : gmap string drive_info) (names : list string) :
  (length (filter (λ p, category_of drive_times p = "Day Trip") names) +
   length (filter (λ p, category_of drive_times p = "Weekend Trip") names) +
   length (filter (λ p, category_of drive_times p = "Multi-day Trip") names) +
   length (filter (λ p, category_of drive_times p = "Unknown") names))%nat
  = length names.
Proof.
  induction names as [|n names IH]; [done|].
  rewrite !filter_cons.
  pose proof (categorize_trip_values (duration_seconds (get_info drive_times n))) as Hc.
  fold (category_of drive_times n) in Hc. unfold CATEGORIES in Hc.
  repeat (apply elem_of_cons in Hc as [Hc|Hc]); try by apply elem_of_nil in Hc.
  all: rewrite Hc; repeat case_decide; simplify_eq; simpl; lia.
Qed.

(** X4: every park of the mapping is filed under exactly one of the four
    categories: the four lists of [categories] together have as many
    entries as [parks], so the counts of the summary add up to the total
    the report prints, and no other key of [categories] holds anything. *)
Theorem summary_counts_add_up (parks : list (string * park_value))
    (drive_times : gmap string drive_info) :
  let categories := group_by_category (sorted_parks parks drive_times) in
  (length (members categories "Day Trip") +
   length (members categories "Weekend Trip") +
   length (members categories "Multi-day Trip") +
   length (members categories "Unknown"))%nat = length parks ∧
  (∀ c, c ∉ CATEGORIES → members categories c = []).
Proof.
  intros categories. split.
  - unfold categories. rewrite !length_members. unfold category_count.
    rewrite category_counts_sum. apply length_fmap.
  - intros c Hc. unfold categories. rewrite members_listed_in.
    unfold listed_in. rewrite filter_none; [done|].
    intros p _ Hp. apply Hc. rewrite <- Hp. apply categorize_trip_values.
Qed.

Lemma summary_counts_add_up_witness :
  members (group_by_category (sorted_parks xyz_parks xyz_drive_times)) "Overnight" = [].
Proof.
  apply (proj2 (summary_counts_add_up xyz_parks xyz_drive_times)).
  unfold CATEGORIES. rewrite !elem_of_cons, elem_of_nil.
  intros [H|[H|[H|[H|H]]]]; (discriminate H || exact H).
Defined.

Lemma StronglySorted_fmap_inv {A B : Type} (f : A → B) (R1 : relation A)
    (R2 : relation B) (l : list A) :
  (∀ x y, R2 (f x) (f y) → R1 x y) →
  StronglySorted R2 (f <$> l) → StronglySorted R1 l.
Proof.
  intros HR. induction l as [|x l IH]; [constructor|].
  rewrite fmap_cons. intros [Hall Hs]%StronglySorted_cons.
  constructor; [by apply IH|].
  rewrite Forall_fmap in Hall. eapply Forall_impl; [exact Hall|].
  intros y Hy. by apply HR.
Qed.

Lemma StronglySorted_filter {A : Type} (R : relation A) (P : A → Prop)
    `{!∀ x, Decision (P x)} (l : list A) :
  StronglySorted R l → StronglySorted R (filter P l).
Proof.
  induction 1 as [|x l Hs IH Hall]; [constructor|].
  rewrite filter_cons. destruct (decide (P x)); [|done].
  constructor; [done|]. rewrite Forall_forall in Hall. apply Forall_forall.
  intros y [_ Hy]%list_elem_of_filter. by apply Hall.
Qed.

(** The names of [sorted_parks] ascend in duration. *)
Lemma sorted_names_strongly (parks : list (string * park_value))
    (drive_times : gmap string drive_info) :
  StronglySorted (λ p q, duration_le (duration_of drive_times p)
                                     (duration_of drive_times q))
                 (sorted_parks parks drive_times).*1.*1.
Proof.
  apply (StronglySorted_fmap_inv (make_entry drive_times) _ entry_le).
  - intros p q. apply make_entry_le.
  - rewrite <- sorted_parks_entries.
    apply (sort_by_key_spec (unsorted_parks parks drive_times)).
Qed.

Lemma listed_has_duration (category : string) (duration_seconds : option Z) :
  category ∈ LISTED → categorize_trip duration_seconds = category →
  is_Some duration_seconds.
Proof.
  intros Hc Hd. destruct duration_seconds as [d|]; [by eexists|].
  simpl in Hd. subst category. revert Hc. unfold LISTED.
  rewrite !elem_of_cons, elem_of_nil. naive_solver.
Qed.

(** X5: a detailed listing keeps its heading's promise "sorted by drive
    time": in the list of each of the three listed categories every park
    has a duration, and the durations ascend down the list. *)
Theorem listings_sorted_by_drive_time (parks : list (string * park_value))
    (drive_times : gmap string drive_info) (category : string) (i j : nat)
    (p q : string) (info_p info_q : drive_info) :
  let categories := group_by_category (sorted_parks parks drive_times) in
  category ∈ LISTED → (i < j)%nat →
  members categories category !! i = Some (p, info_p) →
  members categories category !! j = Some (q, info_q) →
  ∃ a b, duration_seconds info_p = Some a ∧ duration_seconds info_q = Some b ∧
         (a ≤ b)%Z.
Proof.
  intros categories Hc Hij Hp Hq. unfold categories in Hp, Hq.
  rewrite members_listed_in, list_lookup_fmap in Hp, Hq.
  destruct (listed_in parks drive_times category !! i) as [p'|] eqn:Ep; [|done].
  destruct (listed_in parks drive_times category !! j) as [q'|] eqn:Eq; [|done].
  simpl in Hp, Hq. simplify_eq.
  assert (Hle : duration_le (duration_of drive_times p) (duration_of drive_times q)).
  { apply (StronglySorted_lookup_lt
             (λ p q, duration_le (duration_of drive_times p)
                                 (duration_of drive_times q))
             (listed_in parks drive_times category) i j p q);
      [|exact Hij|exact Ep|exact Eq].
    apply StronglySorted_filter, sorted_names_strongly. }
  apply list_elem_of_lookup_2, list_elem_of_filter in Ep as [Cp _].
  apply list_elem_of_lookup_2, list_elem_of_filter in Eq as [Cq _].
  destruct (listed_has_duration _ _ Hc Cp) as [a Ha].
  destruct (listed_has_duration _ _ Hc Cq) as [b Hb].
  unfold duration_of in Hle. rewrite Ha, Hb in Hle. by exists a, b.
Qed.

Lemma listings_sorted_by_drive_time_witness :
  ∃ a b, duration_seconds (route_info 3600 "1 hour" 50000 "31 mi") = Some a ∧
         duration_seconds (route_info 7200 "2 hours" 90000 "56 mi") = Some b ∧
         (a ≤ b)%Z.
Proof.
  apply (listings_sorted_by_drive_time
           [("Far", Pending "Y"); ("Near", Pending "Y")]
           {[ "Far" := route_info 7200 "2 hours" 90000 "56 mi";
              "Near" := route_info 3600 "1 hour" 50000 "31 mi" ]}
           "Day Trip" 0 1 "Near" "Far").
  - apply list_elem_of_In. simpl. tauto.
  - lia.
  - by vm_compute.
  - by vm_compute.
Defined.

(** ** The shape of the clusters *)

Section ClusterShape.
Context `{M : Math}.
Implicit Types (valid : list (string * (float * float))).

Lemma elem_of_valid_parks_coords (parks : list (string * park_value))
    (n : string) (c : float * float) :
  (n, c) ∈ valid_parks parks ↔ (n, Located c.1 c.2) ∈ parks.
Proof.
  unfold valid_parks. rewrite list_elem_of_omap. split.
  - intros ([n' v] & Hin & Hv). destruct v as [?|lat lng|?]; simplify_eq/=. done.
  - intros Hin. exists (n, Located c.1 c.2). split; [done|]. simpl. by destruct c.
Qed.

(** The inner loop adds parks that are within the threshold of the seed,
    and leaves unassigned only parks that are not. *)
Lemma scan_near_far thr coords valid (cluster : list string) (assigned : gset string) :
  ∃ added,
    (fold_left (scan_step thr coords) valid (cluster, assigned)
     = (cluster ++ added, list_to_set added ∪ assigned)) ∧
    (∀ m, m ∈ added → ∃ cm, (m, cm) ∈ valid ∧ within thr coords cm = true) ∧
    (∀ m cm, (m, cm) ∈ valid → m ∉ list_to_set (C := gset string) added ∪ assigned →
             within thr coords cm = false).
Proof.
  revert cluster assigned.
  induction valid as [|[other_name other_coords] valid IH]; intros cluster assigned.
  - exists []. rewrite app_nil_r. simpl. split; [f_equal; set_solver|].
    split; [by intros m ?%elem_of_nil|by intros m cm ?%elem_of_nil].
  - cbn [fold_left]. destruct (decide (other_name ∈ assigned)) as [Hin|Hout].
    + rewrite scan_step_skip by done.
      destruct (IH cluster assigned) as (added & Heq & Hnear & Hfar).
      exists added. split; [done|]. split.
      * intros m Hm. destruct (Hnear m Hm) as (cm & Hcm & Hw).
        exists cm. split; [|done]. apply elem_of_cons. by right.
      * intros m cm [Hm|Hm]%elem_of_cons Hnot; [|by eapply Hfar].
        simplify_eq. set_solver.
    + destruct (within thr coords other_coords) eqn:Ew.
      * rewrite scan_step_join by done.
        destruct (IH (cluster ++ [other_name]) ({[other_name]} ∪ assigned))
          as (added & Heq & Hnear & Hfar).
        exists (other_name :: added). rewrite Heq, <- app_assoc. simpl.
        split; [f_equal; set_solver|]. split.
        -- intros m [->|Hm]%elem_of_cons.
           ++ exists other_coords. split; [|done]. apply elem_of_cons. by left.
           ++ destruct (Hnear m Hm) as (cm & Hcm & Hw).
              exists cm. split; [|done]. apply elem_of_cons. by right.
        -- intros m cm [Hm|Hm]%elem_of_cons Hnot.
           ++ simplify_eq. set_solver.
           ++ apply (Hfar m cm Hm). set_solver.
      * rewrite scan_step_far by done.
        destruct (IH cluster assigned) as (added & Heq & Hnear & Hfar).
        exists added. split; [done|]. split.
        -- intros m Hm. destruct (Hnear m Hm) as (cm & Hcm & Hw).
           exists cm. split; [|done]. apply elem_of_cons. by right.
        -- intros m cm [Hm|Hm]%elem_of_cons Hnot; [|by eapply Hfar].
           by simplify_eq.
Qed.

Lemma seed_step_seeded thr valid (st : list (list string) * gset string)
    (park : string * (float * float)) :
  (∀ x, x ∈ st.2 ↔ x ∈ concat st.1) → seeded valid thr st.1 → park ∈ valid →
  (∀ x, x ∈ (seed_step thr valid st park).2
        ↔ x ∈ concat (seed_step thr valid st park).1) ∧
  seeded valid thr (seed_step thr valid st park).1.
Proof.
  destruct st as [clusters assigned], park as [name coords]. cbn [fst snd].
  intros Hass Hseeded Hpark.
  destruct (decide (name ∈ assigned)) as [Hin|Hout].
  { rewrite seed_step_skip by done. by split. }
  rewrite seed_step_new by done.
  destruct (scan_near_far thr coords valid [name] ({[name]} ∪ assigned))
    as (added & -> & Hnear & Hfar). cbn [fst snd app].
  assert (Hconcat : concat (clusters ++ [name :: added])
                    = concat clusters ++ name :: added).
  { by rewrite concat_app; simpl; rewrite app_nil_r. }
  assert (Hass' : ∀ x, x ∈ list_to_set (C := gset string) added ∪ ({[name]} ∪ assigned)
                       ↔ x ∈ concat (clusters ++ [name :: added])).
  { intros x. rewrite Hconcat, elem_of_app, elem_of_cons, <- Hass.
    rewrite !elem_of_union, elem_of_list_to_set, elem_of_singleton. tauto. }
  split; [exact Hass'|].
  intros i c Hi. destruct (decide (i < length clusters)%nat) as [Hlt|Hge].
  - rewrite lookup_app_l in Hi by done.
    destruct (Hseeded i c Hi) as (seed & cs & rest & -> & Hs & Hn & Hf).
    exists seed, cs, rest. repeat split; try done.
    intros m cm Hm Hnot. apply (Hf m cm Hm).
    by rewrite take_app_le in Hnot by lia.
  - assert (i = length clusters) as ->.
    { apply lookup_lt_Some in Hi. rewrite length_app in Hi. simpl in Hi. lia. }
    rewrite lookup_app_r, Nat.sub_diag in Hi by lia. simpl in Hi. simplify_eq.
    exists name, coords, added. repeat split; try done.
    intros m cm Hm Hnot. apply (Hfar m cm Hm).
    rewrite take_ge in Hnot by (rewrite length_app; simpl; lia).
    by rewrite Hass'.
Qed.

Lemma seed_loop_seeded thr valid (l : list (string * (float * float)))
    (st : list (list string) * gset string) :
  (∀ x, x ∈ st.2 ↔ x ∈ concat st.1) → seeded valid thr st.1 →
  (∀ park, park ∈ l → park ∈ valid) →
  seeded valid thr (fold_left (seed_step thr valid) l st).1.
Proof.
  revert st. induction l as [|park l IH]; intros st Hass Hseeded Hl; [done|].
  cbn [fold_left].
  destruct (seed_step_seeded thr valid st park Hass Hseeded) as [Hass' Hseeded'].
  { apply Hl, elem_of_cons. by left. }
  apply IH; [done|done|]. intros park' Hp. apply Hl, elem_of_cons. by right.
Qed.

Lemma cluster_parks_seeded (parks : list (string * park_value)) thr :
  seeded (valid_parks parks) thr (cluster_parks parks thr).
Proof.
  unfold cluster_parks; cbv zeta. apply seed_loop_seeded; [| |done].
  - simpl. set_solver.
  - intros i c Hi. simpl in Hi. by rewrite lookup_nil in Hi.
Qed.

(** X6: every cluster is star-shaped: it is never empty, its first member
    is a park with a resolved coordinate (the seed), and every other
    member is a park whose distance from the seed is at most the
    threshold. *)
Theorem clusters_are_stars (parks : list (string * park_value))
    (threshold_miles : float) (c : list string) :
  c ∈ cluster_parks parks threshold_miles →
  ∃ seed lat lng rest,
    c = seed :: rest ∧ (seed, Located lat lng) ∈ parks ∧
    ∀ m, m ∈ rest →
      ∃ lat' lng', (m, Located lat' lng') ∈ parks ∧
        PrimFloat.leb (haversine_distance lat lng lat' lng') threshold_miles = true.
Proof.
  intros [i Hi]%list_elem_of_lookup_1.
  destruct (cluster_parks_seeded parks threshold_miles i c Hi)
    as (seed & [lat lng] & rest & -> & Hs & Hn & _).
  exists seed, lat, lng, rest. split; [done|].
  split; [by apply elem_of_valid_parks_coords in Hs|].
  intros m Hm. destruct (Hn m Hm) as ([lat' lng'] & Hcm & Hw).
  exists lat', lng'. split; [by apply elem_of_valid_parks_coords in Hcm|done].
Qed.

(** X7: the seed of a cluster is farther than the threshold from every
    member of every later cluster: a park joins the first seed, in input
    order, that it is close enough to. *)
Theorem later_clusters_are_far (parks : list (string * park_value))
    (threshold_miles : float) (i j : nat) (ci cj : list string)
    (m : string) (lat' lng' : float) :
  (i < j)%nat →
  cluster_parks parks threshold_miles !! i = Some ci →
  cluster_parks parks threshold_miles !! j = Some cj →
  m ∈ cj → (m, Located lat' lng') ∈ parks →
  ∃ seed lat lng,
    head ci = Some seed ∧ (seed, Located lat lng) ∈ parks ∧
    PrimFloat.leb (haversine_distance lat lng lat' lng') threshold_miles = false.
Proof.
  intros Hij Hi Hj Hm Hpark.
  destruct (cluster_parks_seeded parks threshold_miles i ci Hi)
    as (seed & [lat lng] & rest & -> & Hs & _ & Hfar).
  exists seed, lat, lng. split; [done|].
  split; [by apply elem_of_valid_parks_coords in Hs|].
  apply (Hfar m (lat', lng')); [by apply elem_of_valid_parks_coords|].
  destruct (cluster_parks_partition parks threshold_miles) as [Hnd _].
  rewrite <- (take_drop (S i) (cluster_parks parks threshold_miles)) in Hnd.
  rewrite concat_app in Hnd. apply NoDup_app in Hnd as (_ & Hdisj & _).
  intros Hin. apply (Hdisj m Hin). apply elem_of_concat. exists cj.
  split; [done|]. apply list_elem_of_lookup. exists (j - S i)%nat.
  rewrite lookup_drop. by replace (S i + (j - S i))%nat with j by lia.
Qed.

End ClusterShape.

Lemma clusters_are_stars_witness :
  ∃ seed lat lng rest,
    ["A"; "B"] = seed :: rest ∧ (seed, Located lat lng) ∈ meridian_parks ∧
    ∀ m, m ∈ rest →
      ∃ lat' lng', (m, Located lat' lng') ∈ meridian_parks ∧
        PrimFloat.leb (@haversine_distance meridian_math lat lng lat' lng') 30 = true.
Proof.
  apply (@clusters_are_stars meridian_math meridian_parks 30 ["A"; "B"]).
  apply list_elem_of_In. vm_compute. tauto.
Defined.

Lemma later_clusters_are_far_witness :
  ∃ seed lat lng,
    head ["A"; "B"] = Some seed ∧ (seed, Located lat lng) ∈ meridian_parks ∧
    PrimFloat.leb (@haversine_distance meridian_math lat lng 40 0) 30 = false.
Proof.
  apply (@later_clusters_are_far meridian_math meridian_parks 30 0 1
           ["A"; "B"] ["C"] "C" 40 0).
  - lia.
  - by vm_compute.
  - by vm_compute.
  - apply list_elem_of_In. simpl. tauto.
  - apply list_elem_of_In. simpl. tauto.
Defined.

(** ** Clusters at the extremes of the threshold *)

Section ClusterExtremes.
Context `{M : Math}.
Implicit Types (valid : list (string * (float * float))).

Lemma valid_parks_NoDup (parks : list (string * park_value)) :
  NoDup parks.*1 → NoDup (valid_parks parks).*1.
Proof.
  induction parks as [|[n v] parks IH]; [done|].
  rewrite fmap_cons. intros [Hn Hnd]%NoDup_cons. unfold valid_parks. simpl.
  fold (valid_parks parks). destruct (resolved_coords v) as [c|]; simpl; [|by apply IH].
  apply NoDup_cons. split; [|by apply IH].
  intros ([n' c'] & Heq & Hin)%list_elem_of_fmap. simpl in Heq. subst n'.
  apply elem_of_valid_parks_coords in Hin. apply Hn.
  apply list_elem_of_fmap. by exists (n, Located c'.1 c'.2).
Qed.

Lemma scan_none_joins thr coords (l : list (string * (float * float)))
    (cluster : list string) (assigned : gset string) :
  (∀ m cm, (m, cm) ∈ l → m ∈ assigned ∨ within thr coords cm = false) →
  fold_left (scan_step thr coords) l (cluster, assigned) = (cluster, assigned).
Proof.
  induction l as [|[m cm] l IH]; intros Hl; [done|]. cbn [fold_left].
  assert (Hrest : ∀ m cm, (m, cm) ∈ l → m ∈ assigned ∨ within thr coords cm = false).
  { intros m' cm' Hin. apply Hl, elem_of_cons. by right. }
  destruct (decide (m ∈ assigned)) as [Hin|Hout].
  - rewrite scan_step_skip by done. by apply IH.
  - rewrite scan_step_far; [by apply IH|done|].
    destruct (Hl m cm) as [?|?]; [apply elem_of_cons; by left|done|done].
Qed.

Lemma seed_loop_singletons thr valid (l : list (string * (float * float)))
    (clusters : list (list string)) (assigned : gset string) :
  NoDup l.*1 → (∀ n, n ∈ l.*1 → n ∉ assigned) →
  (∀ park, park ∈ l → park ∈ valid) →
  (∀ n1 c1 n2 c2, (n1, c1) ∈ valid → (n2, c2) ∈ valid → n1 ≠ n2 →
                  within thr c1 c2 = false) →
  (fold_left (seed_step thr valid) l (clusters, assigned)).1
    = clusters ++ ((λ n, [n]) <$> l.*1).
Proof.
  revert clusters assigned.
  induction l as [|[n c] l IH]; intros clusters assigned Hnd Hout Hl Hfar.
  - simpl. by rewrite app_nil_r.
  - cbn [fold_left]. rewrite fmap_cons in Hnd. apply NoDup_cons in Hnd as [Hn Hnd].
    rewrite seed_step_new by (apply Hout; rewrite fmap_cons; apply elem_of_cons; by left).
    rewrite scan_none_joins.
    + cbn [fst snd]. rewrite IH; [| done | | | done].
      * rewrite !fmap_cons. by rewrite <- app_assoc.
      * intros n' Hn'. rewrite elem_of_union, elem_of_singleton.
        intros [->|Hin]; [done|]. revert Hin. apply Hout.
        rewrite fmap_cons. apply elem_of_cons. by right.
      * intros park Hp. apply Hl, elem_of_cons. by right.
    + intros m cm Hm. destruct (decide (m = n)) as [->|Hne]; [left; set_solver|].
      right. apply (Hfar n c m cm); [|done|by intros ->]. apply Hl, elem_of_cons. by left.
Qed.

Lemma scan_all_join thr coords (l : list (string * (float * float)))
    (cluster : list string) (assigned : gset string) :
  NoDup l.*1 → (∀ n, n ∈ l.*1 → n ∉ assigned) →
  (∀ m cm, (m, cm) ∈ l → within thr coords cm = true) →
  fold_left (scan_step thr coords) l (cluster, assigned)
    = (cluster ++ l.*1, list_to_set l.*1 ∪ assigned).
Proof.
  revert cluster assigned.
  induction l as [|[m cm] l IH]; intros cluster assigned Hnd Hout Hnear.
  - simpl. rewrite app_nil_r. f_equal. set_solver.
  - cbn [fold_left]. rewrite fmap_cons in Hnd. apply NoDup_cons in Hnd as [Hm Hnd].
    rewrite scan_step_join;
      [|apply Hout; rewrite fmap_cons; apply elem_of_cons; by left
       |apply (Hnear m cm), elem_of_cons; by left].
    rewrite IH; [|done| |].
    + rewrite fmap_cons, <- app_assoc. simpl. f_equal. set_solver.
    + intros n' Hn'. rewrite elem_of_union, elem_of_singleton.
      intros [->|Hin]; [done|]. revert Hin. apply Hout.
      rewrite fmap_cons. apply elem_of_cons. by right.
    + intros m' cm' Hin. apply (Hnear m' cm'), elem_of_cons. by right.
Qed.

Lemma seed_loop_all_assigned thr valid (l : list (string * (float * float)))
    (clusters : list (list string)) (assigned : gset string) :
  (∀ n, n ∈ l.*1 → n ∈ assigned) →
  fold_left (seed_step thr valid) l (clusters, assigned) = (clusters, assigned).
Proof.
  induction l as [|[n c] l IH]; intros Hl; [done|]. cbn [fold_left].
  rewrite seed_step_skip by (apply Hl; rewrite fmap_cons; apply elem_of_cons; by left).
  apply IH. intros n' Hn'. apply Hl. rewrite fmap_cons. apply elem_of_cons. by right.
Qed.

(** X8: when no two parks are within the threshold of each other, every
    park with a resolved coordinate is a cluster of its own, in the order
    of the mapping. *)
Theorem far_parks_cluster_alone (parks : list (string * park_value))
    (threshold_miles : float) :
  NoDup parks.*1 →
  (∀ n1 lat1 lng1 n2 lat2 lng2,
     (n1, Located lat1 lng1) ∈ parks → (n2, Located lat2 lng2) ∈ parks → n1 ≠ n2 →
     PrimFloat.leb (haversine_distance lat1 lng1 lat2 lng2) threshold_miles = false) →
  cluster_parks parks threshold_miles = (λ n, [n]) <$> (valid_parks parks).*1.
Proof.
  intros Hdict Hfar. unfold cluster_parks; cbv zeta.
  rewrite (seed_loop_singletons threshold_miles (valid_parks parks)); [done| | |done|].
  - apply valid_parks_NoDup, Hdict.
  - intros n _. set_solver.
  - intros n1 [lat1 lng1] n2 [lat2 lng2] H1 H2 Hne.
    apply elem_of_valid_parks_coords in H1, H2. by apply (Hfar n1 lat1 lng1 n2 lat2 lng2).
Qed.

(** X9: when every other park is within the threshold of the first park
    with a resolved coordinate, there is one cluster, and it lists all the
    parks with a resolved coordinate in the order of the mapping. *)
Theorem near_parks_cluster_together (parks : list (string * park_value))
    (threshold_miles : float) (seed : string) (lat lng : float)
    (others : list (string * (float * float))) :
  NoDup parks.*1 →
  valid_parks parks = (seed, (lat, lng)) :: others →
  (∀ m lat' lng', (m, (lat', lng')) ∈ others →
     PrimFloat.leb (haversine_distance lat lng lat' lng') threshold_miles = true) →
  cluster_parks parks threshold_miles = [seed :: others.*1].
Proof.
  intros Hdict Hvalid Hnear. unfold cluster_parks; cbv zeta.
  pose proof (valid_parks_NoDup parks Hdict) as Hnd.
  rewrite Hvalid in *. rewrite fmap_cons in Hnd. apply NoDup_cons in Hnd as [Hs Hnd].
  cbn [fold_left]. rewrite seed_step_new by set_solver.
  cbn [fold_left]. rewrite scan_step_skip by set_solver.
  rewrite scan_all_join; [|done| |].
  - cbn [fst snd app]. rewrite seed_loop_all_assigned; [done|].
    intros n Hn. rewrite elem_of_union, elem_of_list_to_set. by left.
  - intros n Hn. rewrite elem_of_union, elem_of_singleton.
    intros [->|Hin]; [done|]. set_solver.
  - intros m [lat' lng'] Hin. by apply (Hnear m lat' lng').
Qed.

End ClusterExtremes.

Lemma far_parks_cluster_alone_witness :
  @cluster_parks meridian_math [("A", Located 0 0); ("C", Located 40 0)] 30
  = [["A"]; ["C"]].
Proof.
  apply (@far_parks_cluster_alone meridian_math
           [("A", Located 0 0); ("C", Located 40 0)] 30).
  - apply (bool_decide_unpack _). vm_compute. exact I.
  - intros n1 lat1 lng1 n2 lat2 lng2 H1 H2 Hne.
    apply list_elem_of_In in H1, H2. simpl in H1, H2.
    destruct H1 as [H1|[H1|[]]], H2 as [H2|[H2|[]]]; simplify_eq;
      try done; by vm_compute.
Defined.

Lemma near_parks_cluster_together_witness :
  @cluster_parks meridian_math [("A", Located 0 0); ("B", Located 20 0)] 30
  = [["A"; "B"]].
Proof.
  apply (@near_parks_cluster_together meridian_math
           [("A", Located 0 0); ("B", Located 20 0)] 30 "A" 0 0 [("B", (20%float, 0%float))]).
  - apply (bool_decide_unpack _). vm_compute. exact I.
  - reflexivity.
  - intros m lat' lng' Hin. apply list_elem_of_In in Hin. simpl in Hin.
    destruct Hin as [Hin|[]]. simplify_eq. by vm_compute.
Defined.


(** ** Geocoding the parks *)

Section GeocodeFacts.
Context `{G : Client}.

Lemma geocode_park_settled (name : string) : needs_geocoding (geocode_park name) = false.
Proof. unfold geocode_park. by destruct (geocode _) as [[|loc rest]|e]. Qed.

Lemma geocode_loop_flag (items cur : list (string * park_value)) (updated : bool) :
  (fold_left geocode_step items (cur, updated)).2
    = updated || bool_decide (pending_names items ≠ []).
Proof.
  revert cur updated. induction items as [|[n v] items IH]; intros cur updated.
  - simpl. by rewrite orb_false_r.
  - cbn [fold_left geocode_step]. unfold pending_names.
    destruct (needs_geocoding v) eqn:E.
    + rewrite IH, filter_cons_True by done. rewrite fmap_cons. simpl.
      by rewrite orb_true_r.
    + rewrite IH, filter_cons_False; [done|]. simpl. by rewrite E.
Qed.

Lemma pending_names_nil (parks : list (string * park_value)) :
  pending_names parks = [] ↔ ∀ name v, (name, v) ∈ parks → needs_geocoding v = false.
Proof.
  unfold pending_names. split.
  - intros Hnil name v Hin. destruct (needs_geocoding v) eqn:E; [|done].
    apply fmap_nil_inv in Hnil.
    assert (Hf : (name, v) ∈ filter (λ item, needs_geocoding item.2 = true) parks)
      by (by apply list_elem_of_filter).
    rewrite Hnil in Hf. by apply elem_of_nil in Hf.
  - intros Hall. rewrite filter_none; [done|].
    intros [name v] Hin Hneed. simpl in Hneed. by rewrite (Hall name v Hin) in Hneed.
Qed.

Lemma geocoded_nil (parks : list (string * park_value)) : geocoded [] <$> parks = parks.
Proof.
  rewrite <- (list_fmap_id parks) at 2. apply list_fmap_ext. intros _ [n v] _.
  unfold geocoded. rewrite decide_False; [done|]. apply not_elem_of_nil.
Qed.

(** What [geocode_parks] returns and the files it leaves. *)
Lemma geocode_parks_run (parks : list (string * park_value)) (fs : files) :
  geocode_parks parks fs
    = (Ok (geocoded (pending_names parks) <$> parks),
       if bool_decide (pending_names parks ≠ [])
       then Files (Some (geocoded (pending_names parks) <$> parks))
                  (DRIVE_TIMES_FILE fs) (MAP_FILE fs) (REPORT_FILE fs)
       else fs).
Proof.
  unfold geocode_parks.
  pose proof (geocode_loop_spec parks parks false) as Hloop.
  pose proof (geocode_loop_flag parks parks false) as Hflag.
  destruct (fold_left geocode_step parks (parks, false)) as [parks' updated].
  simpl in Hloop, Hflag. subst. by destruct (bool_decide _).
Qed.

Lemma geocoded_settled (parks : list (string * park_value)) (name : string)
    (v : park_value) :
  (name, v) ∈ geocoded (pending_names parks) <$> parks → needs_geocoding v = false.
Proof.
  intros ([n w] & Heq & Hin)%list_elem_of_fmap. unfold geocoded in Heq. simpl in Heq.
  destruct (decide (n ∈ pending_names parks)) as [Hp|Hp]; injection Heq as -> ->.
  - apply geocode_park_settled.
  - destruct (needs_geocoding w) eqn:E; [|done]. destruct Hp.
    unfold pending_names. apply list_elem_of_fmap. exists (n, w).
    split; [done|]. by apply list_elem_of_filter.
Qed.

(** X10: [geocode_parks] changes nothing but the parks marked ["Y"]: on a
    mapping with distinct keys every other entry is returned as it was, no
    returned entry is still marked ["Y"], and [parks.json] is rewritten,
    with the mapping returned, exactly when some park was marked; with no
    park marked the mapping and the files are returned untouched. *)
Theorem geocode_parks_settles (parks : list (string * park_value)) (fs : files) :
  NoDup parks.*1 →
  ∃ parks' fs',
    geocode_parks parks fs = (Ok parks', fs') ∧
    (∀ name v, (name, v) ∈ parks → needs_geocoding v = false → (name, v) ∈ parks') ∧
    (∀ name v, (name, v) ∈ parks' → needs_geocoding v = false) ∧
    ((∀ name v, (name, v) ∈ parks → needs_geocoding v = false) →
     parks' = parks ∧ fs' = fs) ∧
    ((∃ name v, (name, v) ∈ parks ∧ needs_geocoding v = true) →
     PARKS_FILE fs' = Some parks').
Proof.
  intros Hdict. eexists _, _. split; [apply geocode_parks_run|].
  split; [|split; [|split]].
  - intros name v Hin Hv. apply list_elem_of_fmap. exists (name, v).
    split; [|done]. unfold geocoded. rewrite decide_False; [done|]. simpl.
    unfold pending_names. intros ([n w] & Heq & [Hw Hin']%list_elem_of_filter)%list_elem_of_fmap.
    simpl in Heq, Hw. subst n.
    rewrite (dict_functional parks name v w Hdict Hin Hin') in Hv. congruence.
  - apply geocoded_settled.
  - intros Hall. apply pending_names_nil in Hall. rewrite Hall.
    rewrite bool_decide_eq_false_2 by (by intros H). by rewrite geocoded_nil.
  - intros (name & v & Hin & Hv).
    rewrite bool_decide_eq_true_2; [done|].
    intros Hnil. rewrite pending_names_nil in Hnil.
    rewrite (Hnil name v Hin) in Hv. discriminate.
Qed.

(** X11: [geocode_parks] is idempotent: run again on the mapping and the
    files of a first run, it returns the same mapping and leaves the files
    as they are (the geocoder is not asked again: a failed lookup stays
    failed). *)
Theorem geocode_parks_idempotent (parks parks' : list (string * park_value))
    (fs fs' : files) :
  geocode_parks parks fs = (Ok parks', fs') →
  geocode_parks parks' fs' = (Ok parks', fs').
Proof.
  rewrite geocode_parks_run. intros [= <- <-].
  rewrite geocode_parks_run.
  assert (Hnil : pending_names (geocoded (pending_names parks) <$> parks) = []).
  { apply pending_names_nil. apply geocoded_settled. }
  rewrite Hnil. rewrite (bool_decide_eq_false_2 ([] ≠ [])) by (by intros H).
  by rewrite geocoded_nil.
Qed.

End GeocodeFacts.

Lemma geocode_parks_settles_witness :
  ∃ parks' fs',
    @geocode_parks demo_client
      [("Big Basin Redwoods SP", Pending "Y"); ("Henry Cowell SP", Located 37 (-122))]
      demo_files = (Ok parks', fs') ∧
    ("Henry Cowell SP", Located 37 (-122)) ∈ parks'.
Proof.
  destruct (@geocode_parks_settles demo_client
              [("Big Basin Redwoods SP", Pending "Y");
               ("Henry Cowell SP", Located 37 (-122))] demo_files)
    as (parks' & fs' & Hrun & Hkeep & _).
  - apply (bool_decide_unpack _). vm_compute. exact I.
  - exists parks', fs'. split; [exact Hrun|]. apply Hkeep; [|reflexivity].
    apply list_elem_of_In. simpl. tauto.
Defined.

Lemma geocode_parks_idempotent_witness :
  ∃ parks' fs',
    @geocode_parks demo_client parks' fs' = (Ok parks', fs') ∧
    parks' = [ ("Big Basin Redwoods SP", Located 37.25 (-122.25));
               ("Atlantis SP", NotLocated "Not found");
               ("El Dorado SP", NotLocated "timed out") ].
Proof.
  eexists _, _. split.
  - apply (@geocode_parks_idempotent demo_client
             [ ("Big Basin Redwoods SP", Pending "Y"); ("Atlantis SP", Pending "Y");
               ("El Dorado SP", Pending "Y") ] _ demo_files _).
    vm_compute. reflexivity.
  - reflexivity.
Defined.

(** ** The drive-time cache *)

Section CacheFacts.
Context `{G : Client}.

(** The loop of [get_drive_times]: it keeps every entry it finds, gives
    every park with a resolved coordinate an entry, adds only entries
    fetched for such parks, and raises the flag only by adding. *)
Lemma drive_time_loop_spec (home_coords : float * float)
    (items : list (string * park_value)) (drive_times : gmap string drive_info)
    (updated : bool) :
  let st := fold_left (drive_time_step home_coords) items (drive_times, updated) in
  (∀ n info, drive_times !! n = Some info → st.1 !! n = Some info) ∧
  (∀ n v, (n, v) ∈ items → is_Some (resolved_coords v) → is_Some (st.1 !! n)) ∧
  (∀ n info, st.1 !! n = Some info →
     drive_times !! n = Some info ∨
     ∃ v c, (n, v) ∈ items ∧ resolved_coords v = Some c ∧
            info = fetch_drive_time home_coords c) ∧
  (st.2 = false → updated = false ∧ st.1 = drive_times) ∧
  (updated = true → st.2 = true).
Proof.
  revert drive_times updated.
  induction items as [|[n v] items IH]; intros drive_times updated; cbv zeta.
  - simpl. repeat split; try done; try tauto. by intros n v ?%elem_of_nil.
  - cbn [fold_left drive_time_step].
    destruct (decide (n ∈ dom drive_times)) as [Hin|Hout].
    { destruct (IH drive_times updated) as (Hkeep & Hcov & Hprov & Hflag & Hup).
      split; [done|]. split; [|split; [|done]].
      - intros n' v' [Heq|Hin']%elem_of_cons Hres; [|by eapply Hcov].
        simplify_eq. apply elem_of_dom in Hin as [info Hinfo].
        exists info. by apply Hkeep.
      - intros n' info Hn'. destruct (Hprov n' info Hn') as [?|(v' & c & ? & ? & ?)];
          [by left|]. right. exists v', c. split; [|done]. apply elem_of_cons. by right. }
    destruct (resolved_coords v) as [c|] eqn:E.
    + destruct (IH (<[n := fetch_drive_time home_coords c]> drive_times) true)
        as (Hkeep & Hcov & Hprov & Hflag & Hup).
      apply not_elem_of_dom in Hout.
      split; [|split; [|split; [|split]]].
      * intros n' info Hn'. apply Hkeep. rewrite lookup_insert_ne; [done|].
        intros ->. congruence.
      * intros n' v' [Heq|Hin']%elem_of_cons Hres; [|by eapply Hcov].
        simplify_eq. eexists. apply Hkeep. apply lookup_insert_eq.
      * intros n' info Hn'. destruct (Hprov n' info Hn') as [Hold|(v' & c' & ? & ? & ?)].
        -- destruct (decide (n = n')) as [<-|Hne].
           ++ rewrite lookup_insert_eq in Hold. simplify_eq. right. exists v, c.
              split; [|done]. apply elem_of_cons. by left.
           ++ rewrite lookup_insert_ne in Hold by done. by left.
        -- right. exists v', c'. split; [|done]. apply elem_of_cons. by right.
      * intros Hfalse. apply Hflag in Hfalse as [? _]. discriminate.
      * intros _. by apply Hup.
    + destruct (IH drive_times updated) as (Hkeep & Hcov & Hprov & Hflag & Hup).
      split; [done|]. split; [|split; [|done]].
      * intros n' v' [Heq|Hin']%elem_of_cons Hres; [|by eapply Hcov].
        simplify_eq. rewrite E in Hres. by destruct Hres.
      * intros n' info Hn'. destruct (Hprov n' info Hn') as [?|(v' & c & ? & ? & ?)];
          [by left|]. right. exists v', c. split; [|done]. apply elem_of_cons. by right.
Qed.

(** When every park with a resolved coordinate is cached, the loop
    changes nothing. *)
Lemma drive_time_loop_cached (home_coords : float * float)
    (items : list (string * park_value)) (drive_times : gmap string drive_info)
    (updated : bool) :
  (∀ n v, (n, v) ∈ items → is_Some (resolved_coords v) → is_Some (drive_times !! n)) →
  fold_left (drive_time_step home_coords) items (drive_times, updated)
    = (drive_times, updated).
Proof.
  induction items as [|[n v] items IH]; intros Hall; [done|].
  cbn [fold_left drive_time_step].
  assert (Hrest : ∀ n v, (n, v) ∈ items → is_Some (resolved_coords v) →
                         is_Some (drive_times !! n)).
  { intros n' v' Hin. apply Hall, elem_of_cons. by right. }
  destruct (decide (n ∈ dom drive_times)) as [Hin|Hout]; [by apply IH|].
  destruct (resolved_coords v) as [c|] eqn:E; [|by apply IH].
  destruct Hout. apply elem_of_dom, (Hall n v); [apply elem_of_cons; by left|].
  by rewrite E.
Qed.

(** What [get_drive_times] returns and the files it leaves. *)
Lemma get_drive_times_run (home_coords : float * float)
    (parks : list (string * park_value)) (fs : files) :
  let st := fold_left (drive_time_step home_coords) parks
                      (default ∅ (DRIVE_TIMES_FILE fs), false) in
  get_drive_times home_coords parks fs
    = (Ok st.1,
       if st.2 then Files (PARKS_FILE fs) (Some st.1) (MAP_FILE fs) (REPORT_FILE fs)
       else fs).
Proof.
  cbv zeta.
  unfold get_drive_times, load_drive_times, read_files, mbind, io_bind, mret, io_ret.
  destruct (fold_left _ parks _) as [drive_times updated]. simpl.
  by destruct updated.
Qed.

(** X12: [get_drive_times] never refreshes the cache: every entry of
    [drive_times.json] is returned as it was; every park with a resolved
    coordinate has an entry afterwards; an entry that was not cached is the
    one fetched for a park of the mapping with a resolved coordinate; and
    the file left behind holds exactly the mapping returned. *)
Theorem get_drive_times_extends_cache (home_coords : float * float)
    (parks : list (string * park_value)) (fs : files) :
  let cache := default ∅ (DRIVE_TIMES_FILE fs) in
  ∃ drive_times fs',
    get_drive_times home_coords parks fs = (Ok drive_times, fs') ∧
    (∀ n info, cache !! n = Some info → drive_times !! n = Some info) ∧
    (∀ n v, (n, v) ∈ parks → is_Some (resolved_coords v) →
            is_Some (drive_times !! n)) ∧
    (∀ n info, drive_times !! n = Some info →
       cache !! n = Some info ∨
       ∃ v c, (n, v) ∈ parks ∧ resolved_coords v = Some c ∧
              info = fetch_drive_time home_coords c) ∧
    default ∅ (DRIVE_TIMES_FILE fs') = drive_times ∧
    PARKS_FILE fs' = PARKS_FILE fs ∧ MAP_FILE fs' = MAP_FILE fs ∧
    REPORT_FILE fs' = REPORT_FILE fs.
Proof.
  intros cache. eexists _, _. split; [apply get_drive_times_run|].
  destruct (drive_time_loop_spec home_coords parks cache false)
    as (Hkeep & Hcov & Hprov & Hflag & _).
  fold cache. split; [done|]. split; [done|]. split; [done|].
  destruct (fold_left _ parks _) as [drive_times updated]. simpl in *.
  destruct updated; [done|]. destruct (Hflag eq_refl) as [_ ->]. done.
Qed.

(** X13: drive times are fetched once: a second call of
    [get_drive_times] on the files of a first call returns the same
    mapping and writes nothing, even for other home coordinates. *)
Theorem get_drive_times_is_cached (home_coords home_coords' : float * float)
    (parks : list (string * park_value)) (fs fs' : files)
    (drive_times : gmap string drive_info) :
  get_drive_times home_coords parks fs = (Ok drive_times, fs') →
  get_drive_times home_coords' parks fs' = (Ok drive_times, fs').
Proof.
  rewrite get_drive_times_run. cbv zeta.
  destruct (drive_time_loop_spec home_coords parks (default ∅ (DRIVE_TIMES_FILE fs)) false)
    as (_ & Hcov & _ & Hflag & _).
  destruct (fold_left _ parks _) as [dt updated] eqn:Efold. simpl in *.
  intros [= <- <-]. rewrite get_drive_times_run. cbv zeta.
  assert (Hfile : default ∅ (DRIVE_TIMES_FILE
                    (if updated
                     then Files (PARKS_FILE fs) (Some dt) (MAP_FILE fs) (REPORT_FILE fs)
                     else fs)) = dt).
  { destruct updated; [done|]. by destruct (Hflag eq_refl) as [_ ->]. }
  rewrite Hfile. by rewrite drive_time_loop_cached.
Qed.

End CacheFacts.

Lemma get_drive_times_is_cached_witness :
  ∃ drive_times fs',
    @get_drive_times demo_client (0%float, 0%float) meridian_parks fs'
      = (Ok drive_times, fs') ∧
    is_Some (drive_times !! "A").
Proof.
  eexists _, _. split.
  - apply (@get_drive_times_is_cached demo_client (37%float, (-122)%float)
             (0%float, 0%float) meridian_parks demo_files).
    vm_compute. reflexivity.
  - vm_compute. eauto.
Defined.

(** ** The map *)

Lemma popup_html_complete (park_name : string) (info : drive_info) :
  route_complete info → ∃ html, popup_html park_name info = Ok html.
Proof.
  unfold route_complete, popup_html. cbv zeta. intros Hc.
  destruct (duration_text info) as [dtext|].
  - destruct Hc as [mtext ->]; [by eexists|]. by eexists.
  - destruct (error info); by eexists.
Qed.

Lemma popup_html_incomplete (park_name : string) (info : drive_info) :
  ¬ route_complete info → popup_html park_name info = Raise (KeyError "distance_text").
Proof.
  unfold route_complete, popup_html. cbv zeta. intros Hc.
  destruct (duration_text info) as [dtext|]; [|destruct Hc; by intros [? ?]].
  destruct (distance_text info) as [mtext|]; [|done]. destruct Hc. by eexists.
Qed.

Lemma marker_loop_raised (drive_times : gmap string drive_info)
    (items : list (string * park_value)) (e : exn) :
  fold_left (marker_step drive_times) items (Raise e) = Raise e.
Proof. induction items as [|item items IH]; [done|]. by cbn [fold_left marker_step]. Qed.

Lemma marker_loop_ok (drive_times : gmap string drive_info)
    (items : list (string * park_value)) (m : list marker) :
  (∀ n v, (n, v) ∈ items → is_Some (resolved_coords v) →
          route_complete (get_info drive_times n)) →
  ∃ markers,
    fold_left (marker_step drive_times) items (Ok m) = Ok (m ++ markers) ∧
    location <$> markers = (valid_parks items).*2 ∧
    color <$> markers
      = (λ n, get_marker_color (duration_of drive_times n)) <$> (valid_parks items).*1 ∧
    icon <$> markers
      = (λ n, get_marker_icon (get_park_type n)) <$> (valid_parks items).*1.
Proof.
  revert m. induction items as [|[n v] items IH]; intros m Hall.
  - exists []. by rewrite app_nil_r.
  - assert (Hrest : ∀ n v, (n, v) ∈ items → is_Some (resolved_coords v) →
                           route_complete (get_info drive_times n)).
    { intros n' v' Hin. apply Hall, elem_of_cons. by right. }
    cbn [fold_left marker_step]. unfold valid_parks. simpl. fold (valid_parks items).
    destruct (resolved_coords v) as [c|] eqn:E; simpl.
    + destruct (popup_html_complete n (get_info drive_times n)) as [html ->].
      { apply (Hall n v); [apply elem_of_cons; by left|by rewrite E]. }
      destruct (IH (m ++ [Marker c html
                            (get_marker_color (duration_seconds (get_info drive_times n)))
                            (get_marker_icon (get_park_type n))]) Hrest)
        as (markers & -> & Hl & Hc & Hi).
      eexists (_ :: markers). rewrite <- app_assoc. split; [done|].
      rewrite !fmap_cons. simpl. by rewrite Hl, Hc, Hi.
    + by apply IH.
Qed.

Lemma marker_loop_key_error (drive_times : gmap string drive_info)
    (items : list (string * park_value)) (m : list marker) :
  (∃ n v, (n, v) ∈ items ∧ is_Some (resolved_coords v) ∧
          ¬ route_complete (get_info drive_times n)) →
  fold_left (marker_step drive_times) items (Ok m) = Raise (KeyError "distance_text").
Proof.
  revert m. induction items as [|[n v] items IH]; intros m (n' & v' & Hin & Hres & Hbad).
  - by apply elem_of_nil in Hin.
  - cbn [fold_left marker_step].
    destruct (resolved_coords v) as [c|] eqn:E.
    + destruct (decide (route_complete (get_info drive_times n))) as [Hok|Hno].
      * destruct (popup_html_complete n _ Hok) as [html ->].
        apply IH. exists n', v'. split; [|done].
        apply elem_of_cons in Hin as [Heq|Hin]; [|done]. by simplify_eq.
      * rewrite (popup_html_incomplete n _ Hno). apply marker_loop_raised.
    + apply IH. exists n', v'. split; [|done].
      apply elem_of_cons in Hin as [Heq|Hin]; [|done].
      simplify_eq. rewrite E in Hres. by destruct Hres.
Qed.


(** X14: [generate_map] writes the home marker followed by one marker
    for each park with a resolved coordinate, in the order of the mapping,
    at the park's coordinate, in the colour of its drive time and with the
    icon of its type, and none for a park without a coordinate; unless the
    entry of such a park has [duration_text] without [distance_text]: then
    it raises [KeyError] and writes nothing. *)
Theorem generate_map_markers (home_coords : float * float)
    (parks : list (string * park_value)) (drive_times : gmap string drive_info)
    (fs : files) :
  ((∀ n v, (n, v) ∈ parks → is_Some (resolved_coords v) →
           route_complete (get_info drive_times n)) →
   ∃ markers,
     generate_map home_coords parks drive_times fs
       = (Ok (), Files (PARKS_FILE fs) (DRIVE_TIMES_FILE fs)
                       (Some (Marker home_coords ("<b>Home</b><br>" +:+ MY_ADDRESS)
                                     "blue" "home" :: markers))
                       (REPORT_FILE fs)) ∧
     location <$> markers = (valid_parks parks).*2 ∧
     color <$> markers
       = (λ n, get_marker_color (duration_of drive_times n)) <$> (valid_parks parks).*1 ∧
     icon <$> markers
       = (λ n, get_marker_icon (get_park_type n)) <$> (valid_parks parks).*1) ∧
  ((∃ n v, (n, v) ∈ parks ∧ is_Some (resolved_coords v) ∧
           ¬ route_complete (get_info drive_times n)) →
   generate_map home_coords parks drive_times fs
     = (Raise (KeyError "distance_text"), fs)).
Proof.
  split.
  - intros Hall. unfold generate_map; cbv zeta.
    destruct (marker_loop_ok drive_times parks
                [Marker home_coords ("<b>Home</b><br>" +:+ MY_ADDRESS) "blue" "home"]
                Hall) as (markers & -> & Hl & Hc & Hi).
    exists markers. by repeat split.
  - intros Hbad. unfold generate_map; cbv zeta.
    by rewrite (marker_loop_key_error drive_times parks _ Hbad).
Qed.

Lemma generate_map_markers_witness :
  generate_map (37%float, (-122)%float)
    [("Pigeon Point SHP", Located 37.25 (-122.25))]
    {[ "Pigeon Point SHP" := DriveInfo (Some 3600%Z) (Some "1 hour") None None None ]}
    demo_files
  = (Raise (KeyError "distance_text"), demo_files).
Proof.
  apply (proj2 (generate_map_markers (37%float, (-122)%float)
                  [("Pigeon Point SHP", Located 37.25 (-122.25))]
                  {[ "Pigeon Point SHP" :=
                       DriveInfo (Some 3600%Z) (Some "1 hour") None None None ]}
                  demo_files)).
  exists "Pigeon Point SHP", (Located 37.25 (-122.25)).
  split; [apply list_elem_of_In; simpl; tauto|]. split; [by eexists|].
  unfold route_complete. vm_compute. intros H. by destruct (H (ex_intro _ _ eq_refl)).
Defined.

(** ** A whole run *)

Section RunFacts.
Context `{M : Math} `{G : Client}.


Lemma geocoded_keeps (parks : list (string * park_value)) (name : string)
    (v : park_value) :
  NoDup parks.*1 → (name, v) ∈ parks → needs_geocoding v = false →
  (name, v) ∈ geocoded (pending_names parks) <$> parks.
Proof.
  intros Hdict Hin Hv. apply list_elem_of_fmap. exists (name, v).
  split; [|done]. unfold geocoded. rewrite decide_False; [done|]. simpl.
  unfold pending_names.
  intros ([n w] & Heq & [Hw Hin']%list_elem_of_filter)%list_elem_of_fmap.
  simpl in Heq, Hw. subst n.
  rewrite (dict_functional parks name v w Hdict Hin Hin') in Hv. congruence.
Qed.

Lemma resolved_is_settled (v : park_value) :
  is_Some (resolved_coords v) → needs_geocoding v = false.
Proof. destruct v; simpl; [by intros [? ?]|done|done]. Qed.


(** X16: a run keeps the cache consistent with the parks: if, for a
    mapping with distinct keys, every cached drive time belongs to a park
    with a resolved coordinate, the same holds of the mappings that
    [geocode_parks] and [get_drive_times] return, and every park left
    without a coordinate is then of category Unknown. *)
Theorem run_keeps_cache_consistent (parks : list (string * park_value))
    (home_coords : float * float) (fs : files) :
  NoDup parks.*1 →
  cache_consistent parks (default ∅ (DRIVE_TIMES_FILE fs)) →
  ∃ parks' fs1 drive_times fs2,
    geocode_parks parks fs = (Ok parks', fs1) ∧
    get_drive_times home_coords parks' fs1 = (Ok drive_times, fs2) ∧
    cache_consistent parks' drive_times ∧
    ∀ name v, (name, v) ∈ parks' → resolved_coords v = None →
              category_of drive_times name = "Unknown".
Proof.
  intros Hdict Hcons.
  set (parks' := geocoded (pending_names parks) <$> parks).
  pose proof (geocode_parks_run parks fs) as Hgeo. fold parks' in Hgeo.
  set (fs1 := if bool_decide (pending_names parks ≠ []) then _ else fs) in Hgeo.
  assert (Hd1 : DRIVE_TIMES_FILE fs1 = DRIVE_TIMES_FILE fs)
    by (unfold fs1; by case_bool_decide).
  destruct (drive_time_loop_spec home_coords parks' (default ∅ (DRIVE_TIMES_FILE fs1)) false)
    as (_ & _ & Hprov & _).
  pose proof (get_drive_times_run home_coords parks' fs1) as Hrun. cbv zeta in Hrun.
  destruct (fold_left (drive_time_step home_coords) parks' _) as [drive_times updated].
  simpl in Hprov, Hrun.
  assert (Hcons' : cache_consistent parks' drive_times).
  { intros n [info Hn]. destruct (Hprov n info Hn) as [Hold|(v & c & Hin & Hres & _)].
    - rewrite Hd1 in Hold. destruct (Hcons n) as (v & Hin & Hres); [by eexists|].
      exists v. split; [|done].
      apply geocoded_keeps; [done|done|by apply resolved_is_settled].
    - exists v. split; [done|]. by rewrite Hres. }
  exists parks', fs1, drive_times. eexists. split; [exact Hgeo|]. split; [exact Hrun|].
  split; [exact Hcons'|]. intros name v Hin Hnone.
  unfold category_of, get_info.
  destruct (drive_times !! name) as [info|] eqn:E; [|done]. exfalso.
  destruct (Hcons' name) as (v' & Hin' & Hres); [by eexists|].
  assert (Hdict' : NoDup parks'.*1) by (unfold parks'; by rewrite geocoded_names).
  rewrite (dict_functional parks' name v v' Hdict' Hin Hin') in Hnone.
  rewrite Hnone in Hres. by destruct Hres.
Qed.

End RunFacts.


Lemma run_keeps_cache_consistent_witness :
  ∃ parks' fs1 drive_times fs2,
    @geocode_parks demo_client
      [ ("Big Basin Redwoods SP", Pending "Y"); ("Atlantis SP", Pending "Y") ]
      demo_files = (Ok parks', fs1) ∧
    @get_drive_times demo_client (37%float, (-122)%float) parks' fs1
      = (Ok drive_times, fs2) ∧
    cache_consistent parks' drive_times ∧
    ∀ name v, (name, v) ∈ parks' → resolved_coords v = None →
              category_of drive_times name = "Unknown".
Proof.
  apply (@run_keeps_cache_consistent demo_client
           [ ("Big Basin Redwoods SP", Pending "Y"); ("Atlantis SP", Pending "Y") ]
           (37%float, (-122)%float) demo_files).
  - apply (bool_decide_unpack _). vm_compute. exact I.
  - intros n [info Hn]. simpl in Hn. by rewrite lookup_empty in Hn.
Defined.

(** ** The report without drive times *)

Lemma filter_all {A : Type} (P : A → Prop) `{!∀ x, Decision (P x)} (l : list A) :
  (∀ x, x ∈ l → P x) → filter P l = l.
Proof.
  induction l as [|y l IH]; intros Hl; [done|].
  rewrite filter_cons_True by (apply Hl, elem_of_cons; by left).
  f_equal. apply IH. intros x Hx. apply Hl, elem_of_cons. by right.
Qed.

(** X17: when no name has a duration in the drive-time mapping (an empty
    cache, or only failed routes), the report consists of the banner, a
    summary whose only count line is that of Unknown with all the parks
    (none for an empty mapping), and the footer: no detailed listing and
    no cluster section. *)
Theorem report_without_durations (parks : list (string * park_value))
    (drive_times : gmap string drive_info) (clusters : list (list string)) :
  (∀ n, duration_of drive_times n = None) →
  report_lines parks drive_times clusters
    = banner_lines parks ++
      [RULE_DASH; "SUMMARY BY TRIP TYPE"; RULE_DASH] ++
      (if decide (0 < length parks)%nat
       then ["  Unknown: " +:+ pretty (length parks) +:+ " parks"] else []) ++
      [""] ++ footer_lines.
Proof.
  intros Hnone.
  assert (Hcat : ∀ n, category_of drive_times n = "Unknown").
  { intros n. unfold category_of. specialize (Hnone n).
    unfold duration_of in Hnone. by rewrite Hnone. }
  assert (Hcount : ∀ c, c ≠ "Unknown" → category_count parks drive_times c = 0%nat).
  { intros c Hc. unfold category_count. rewrite filter_none; [done|].
    intros n _. rewrite Hcat. congruence. }
  assert (Hunknown : category_count parks drive_times "Unknown" = length parks).
  { unfold category_count. rewrite filter_all by (intros n _; apply Hcat).
    apply length_fmap. }
  assert (Hlisted : ∀ c, c ≠ "Unknown" → listing_spec parks drive_times c = []).
  { intros c Hc. unfold listing_spec, listed_in. rewrite filter_none; [done|].
    intros n _. rewrite Hcat. congruence. }
  assert (Hclusters : multi_day_clusters drive_times clusters = []).
  { unfold multi_day_clusters. apply filter_none.
    intros c _ [_ (p & _ & Hp)%Exists_exists]. by rewrite Hcat in Hp. }
  rewrite report_lines_spec, Hclusters. unfold listings_spec.
  rewrite !Hlisted by discriminate.
  unfold summary_spec, summary_line. rewrite !Hcount by discriminate. rewrite Hunknown.
  simpl. by case_decide.
Qed.

Lemma report_without_durations_witness :
  report_lines xyz_parks {[ "X" := error_info "Route not found" ]} [["X"; "Y"]]
  = banner_lines xyz_parks ++
    [RULE_DASH; "SUMMARY BY TRIP TYPE"; RULE_DASH; "  Unknown: 3 parks"; ""] ++
    footer_lines.
Proof.
  apply (report_without_durations xyz_parks {[ "X" := error_info "Route not found" ]}
           [["X"; "Y"]]).
  intros n. unfold duration_of, get_info.
  destruct (decide (n = "X")) as [->|Hne]; [reflexivity|].
  by rewrite lookup_singleton_ne.
Defined.

(** ** Park types and the suffix rule *)

Lemma not_contains_not_ends_with (suffix s : string) :
  contains suffix s = false → ends_with suffix s = false.
Proof.
  intros Hc. destruct (ends_with suffix s) eqn:E; [|done].
  apply ends_with_contains in E. congruence.
Qed.

(** X18: [get_park_type] and the suffix rule of its docstring can differ
    only on a name in which a designation occurs: a name the code types as
    a generic park ends in no designation, and a name that ends in a
    designation is never typed as a generic park. *)
Theorem generic_park_has_no_designation (park_name : string) :
  (get_park_type park_name = "park" → park_type_by_suffix park_name = "park") ∧
  (park_type_by_suffix park_name ≠ "park" → get_park_type park_name ≠ "park").
Proof.
  assert (H : get_park_type park_name = "park" →
              park_type_by_suffix park_name = "park").
  { unfold get_park_type, park_type_by_suffix.
    destruct (contains "SHP" park_name) eqn:E1; [discriminate|].
    destruct (contains "SB" park_name) eqn:E2; [discriminate|].
    destruct (contains "SRA" park_name) eqn:E3; [discriminate|].
    destruct (contains "SNR" park_name) eqn:E4; [discriminate|].
    intros _. by rewrite !not_contains_not_ends_with. }
  split; [exact H|]. intros Hs Hc. by apply Hs, H.
Qed.

Lemma generic_park_has_no_designation_witness :
  get_park_type "Half Moon Bay SB" ≠ "park".
Proof.
  apply (proj2 (generic_park_has_no_designation "Half Moon Bay SB")).
  by vm_compute.
Defined.
